(** * aiomemq: an in-memory publish/subscribe broker (aiomemq.cpp)

    A shallow embedding of the broker's command handlers, replay cache,
    schema validation, record decoding and command-line handling, with the
    properties of the specification stated over it. *)

From Stdlib Require Import ZArith Lia Bool Ascii String List.
From Stdlib Require Import Floats.PrimFloat.
From stdpp Require Import base option list gmap sets strings sorting.

Set Warnings "-register-all,-clear-no-such-hyp".
Local Open Scope Z_scope.

(* ===================================================================== *)
(** * Part I: the program                                                 *)
(* ===================================================================== *)

(** ** Machine integers: C++ [int] is 32 bits, two's complement. *)

Module Int.

Definition INT_MIN : Z := - 2 ^ 31.
Definition INT_MAX : Z := 2 ^ 31 - 1.

Definition in_range (z : Z) : bool := (INT_MIN <=? z) && (z <=? INT_MAX).

(** [static_cast<int>(x)] for an integral [x] of a wider type (int64_t,
    size_t): the value modulo 2^32 (C++20 [conv.integral]). *)
Definition to_int (z : Z) : Z := (z + 2 ^ 31) mod 2 ^ 32 - 2 ^ 31.

(** [static_cast<uint16_t>(x)]. *)
Definition to_uint16 (z : Z) : Z := z mod 2 ^ 16.

End Int.

(** ** Abnormal outcomes of a handler.

    [json_error] is the exception thrown by [js::object::at] on a missing
    key and by [as_string]/[as_int64]/[as_bool] on a value of another
    kind.  The other three are undefined behaviour in C++. *)

Inductive fault : Set :=
| json_error
| int_overflow
| pop_front_empty
| iterator_past_end.

Inductive res (A : Type) : Type :=
| Ok (a : A)
| Fault (f : fault).
Arguments Ok {A} a.
Arguments Fault {A} f.

#[global] Instance res_ret : MRet res := fun A a => Ok a.

#[global] Instance res_bind : MBind res := fun A B k m =>
  match m with
  | Ok a => k a
  | Fault f => Fault f
  end.

(** ** JSON values (boost::json). *)

Module Json.

Inductive kind : Set :=
| k_null | k_bool | k_int64 | k_uint64 | k_double | k_string | k_array
| k_object.

Inductive value : Type :=
| Null
| Bool (b : bool)
| Int64 (i : Z)
| Uint64 (u : Z)
| Double (d : float)
| Str (s : string)
| Array (a : list value)
| Object (o : list (string * value)).

(** [js::object]: key/value pairs in insertion order, keys unique. *)
Definition object : Type := list (string * value).

Definition kind_of (v : value) : kind :=
  match v with
  | Null => k_null
  | Bool _ => k_bool
  | Int64 _ => k_int64
  | Uint64 _ => k_uint64
  | Double _ => k_double
  | Str _ => k_string
  | Array _ => k_array
  | Object _ => k_object
  end.

Definition kind_eqb (a b : kind) : bool :=
  match a, b with
  | k_null, k_null | k_bool, k_bool | k_int64, k_int64
  | k_uint64, k_uint64 | k_double, k_double | k_string, k_string
  | k_array, k_array | k_object, k_object => true
  | _, _ => false
  end.

(** [o.find(k)]: the value stored under [k], if any. *)
Fixpoint find (o : object) (k : string) : option value :=
  match o with
  | [] => None
  | (k', v) :: o' => if String.eqb k' k then Some v else find o' k
  end.

Definition contains (o : object) (k : string) : bool :=
  match find o k with Some _ => true | None => false end.

(** [o.at(k)] throws when the key is missing. *)
Definition at_ (o : object) (k : string) : res value :=
  match find o k with Some v => Ok v | None => Fault json_error end.

(** [o[k] = v]: assign in place when the key exists, append otherwise. *)
Fixpoint set (o : object) (k : string) (v : value) : object :=
  match o with
  | [] => [(k, v)]
  | (k', v') :: o' =>
      if String.eqb k' k then (k', v) :: o' else (k', v') :: set o' k v
  end.

Definition as_string (v : value) : res string :=
  match v with Str s => Ok s | _ => Fault json_error end.

Definition as_int64 (v : value) : res Z :=
  match v with Int64 i => Ok i | _ => Fault json_error end.

Definition as_bool (v : value) : res bool :=
  match v with Bool b => Ok b | _ => Fault json_error end.

(** [operator==] on values.  Signed and unsigned integers compare by
    numeric value, doubles only with doubles (IEEE equality), arrays
    pointwise, objects as unordered maps. *)
Fixpoint value_eqb (a b : value) {struct a} : bool :=
  match a, b with
  | Null, Null => true
  | Bool x, Bool y => Bool.eqb x y
  | Int64 x, Int64 y => Z.eqb x y
  | Int64 x, Uint64 y => Z.eqb x y
  | Uint64 x, Uint64 y => Z.eqb x y
  | Uint64 x, Int64 y => Z.eqb x y
  | Double x, Double y => PrimFloat.eqb x y
  | Str x, Str y => String.eqb x y
  | Array xs, Array ys =>
      (fix all2 (xs ys : list value) {struct xs} : bool :=
         match xs, ys with
         | [], [] => true
         | x :: xs', y :: ys' => value_eqb x y && all2 xs' ys'
         | _, _ => false
         end) xs ys
  | Object xs, Object ys =>
      Nat.eqb (List.length xs) (List.length ys) &&
      (fix sub (xs : list (string * value)) {struct xs} : bool :=
         match xs with
         | [] => true
         | (k, x) :: xs' =>
             match find ys k with
             | Some y => value_eqb x y && sub xs'
             | None => false
             end
         end) xs
  | _, _ => false
  end.

End Json.

(** ** Boost.Locale's UTF conversion, as called by [valid_utf8].

    [boost::locale::conv::utf_to_utf] and [utf::utf_traits<char>] are
    library code (Boost 1.8x, boost/locale/utf.hpp, encoding_utf.hpp and
    encoding_errors.hpp).  The library declares
    [utf_to_utf(const CharIn* begin, const CharIn* end,
                method_type how = default_method)],
    and the broker calls [utf_to_utf<char32_t>(b, e)], leaving [how] to
    its default. *)

Module Utf.

(** [enum method_type { skip = 0, stop = 1, default_method = skip }]. *)
Inductive method_type : Set := skip | stop.
Definition default_method : method_type := skip.

Inductive code_point : Set :=
| point (v : Z)
| illegal
| incomplete.

Definition byte (c : ascii) : Z := Z.of_N (N_of_ascii c).

Definition trail_length (c : Z) : Z :=
  if c <? 128 then 0
  else if c <? 194 then -1
  else if c <? 224 then 1
  else if c <? 240 then 2
  else if c <=? 244 then 3
  else -1.

Definition width (v : Z) : Z :=
  if v <=? 127 then 1
  else if v <=? 2047 then 2
  else if v <=? 65535 then 3
  else 4.

Definition is_trail (c : Z) : bool := Z.land c 192 =? 128.

Definition is_valid_codepoint (v : Z) : bool :=
  if v >? 1114111 then false
  else if (55296 <=? v) && (v <=? 57343) then false
  else true.

(** The fall-through [switch] of [decode]: read [n] trail bytes. *)
Fixpoint trail (n : nat) (c : Z) (p : string) : code_point * string :=
  match n with
  | O => (point c, p)
  | S n' =>
      match p with
      | EmptyString => (incomplete, p)
      | String t p' =>
          if is_trail (byte t)
          then trail n' (Z.lor (Z.shiftl c 6) (Z.land (byte t) 63)) p'
          else (illegal, p')
      end
  end.

(** [utf_traits<char>::decode(p, e)]: one code point from the front of the
    input, and the input that is left. *)
Definition decode (p : string) : code_point * string :=
  match p with
  | EmptyString => (incomplete, p)
  | String l p' =>
      let lead := byte l in
      let trail_size := trail_length lead in
      if trail_size <? 0 then (illegal, p')
      else if trail_size =? 0 then (point lead, p')
      else
        let c := Z.land lead (Z.shiftl 1 (6 - trail_size) - 1) in
        match trail (Z.to_nat trail_size) c p' with
        | (point v, rest) =>
            if negb (is_valid_codepoint v) then (illegal, rest)
            else if negb (width v =? trail_size + 1) then (illegal, rest)
            else (point v, rest)
        | r => r
        end
  end.

(** The loop of [utf_to_utf<char32_t>]: [None] is [conversion_error]
    thrown.  Every call of [decode] on a non-empty input consumes a byte,
    so [fuel = length p] iterations are enough (lemma [convert_fuel]). *)
Fixpoint convert (fuel : nat) (how : method_type) (p : string)
  : option (list Z) :=
  match p, fuel with
  | EmptyString, _ => Some []
  | _, O => Some []
  | _, S fuel' =>
      match decode p with
      | (point v, rest) => cons v <$> convert fuel' how rest
      | (_, rest) =>
          match how with
          | stop => None
          | skip => convert fuel' how rest
          end
      end
  end.

Definition utf_to_utf (how : method_type) (s : string) : option (list Z) :=
  convert (String.length s) how s.

(** Well-formed UTF-8, as the strict conversion decides it. *)
Definition well_formed (s : string) : bool :=
  match utf_to_utf stop s with Some _ => true | None => false end.

End Utf.

(** [valid_utf8]: [true] unless the conversion throws. *)
Definition valid_utf8 (str : string) : bool :=
  match Utf.utf_to_utf Utf.default_method str with
  | Some _ => true
  | None => false
  end.

(** ** Schema validation. *)

Record FieldSpec : Type := {
  fs_kind : Json.kind;
  required : bool;
  values : list Json.value
}.

Definition Template : Type := list (string * FieldSpec).

Definition template_subscribe : Template :=
  [ ("command",   {| fs_kind := Json.k_string; required := true;  values := [] |});
    ("topic",     {| fs_kind := Json.k_string; required := true;  values := [] |});
    ("last_seen", {| fs_kind := Json.k_int64;  required := false; values := [] |});
    ("cache",     {| fs_kind := Json.k_bool;   required := false; values := [] |}) ]%string.

Definition template_unsubscribe : Template :=
  [ ("command",   {| fs_kind := Json.k_string; required := true;  values := [] |});
    ("topic",     {| fs_kind := Json.k_string; required := true;  values := [] |}) ]%string.

Definition template_send : Template :=
  [ ("command",   {| fs_kind := Json.k_string; required := true;  values := [] |});
    ("topic",     {| fs_kind := Json.k_string; required := true;  values := [] |});
    ("msg",       {| fs_kind := Json.k_string; required := true;  values := [] |});
    ("delivery",  {| fs_kind := Json.k_string; required := true;
                     values := [Json.Str "all"; Json.Str "one"] |});
    ("cache",     {| fs_kind := Json.k_bool;   required := false; values := [] |}) ]%string.

Definition template_contains (t : Template) (k : string) : bool :=
  existsb (fun e => String.eqb (fst e) k) t.

(** One iteration of the second loop of [template_match]: [false] is the
    early [return false]. *)
Definition field_ok (o : Json.object) (k : string) (spec : FieldSpec) : bool :=
  match Json.find o k with
  | None => negb (required spec)
  | Some v =>
      if negb (Json.kind_eqb (Json.kind_of v) (fs_kind spec)) then false
      else
        match values spec with
        | [] => true
        | vs => existsb (fun a => Json.value_eqb a v) vs
        end
  end.

Definition template_match (t : Template) (o : Json.object) : bool :=
  forallb (fun e => template_contains t (fst e)) o &&
  forallb (fun e => field_ok o (fst e) (snd e)) t.

Definition verify_command (o : Json.object) : bool :=
  match Json.find o "command" with
  | Some (Json.Str cmd) =>
      if String.eqb cmd "subscribe" then template_match template_subscribe o
      else if String.eqb cmd "unsubscribe" then template_match template_unsubscribe o
      else if String.eqb cmd "send" then template_match template_send o
      else false
  | _ => false
  end.

(** ** Command line. *)

Module Cli.

Definition DEFAULT_PORT : Z := 7000.
Definition DEFAULT_CACHE_SIZE : Z := 100.

(** The exceptions [std::stoi] throws. *)
Inductive exn : Set := invalid_argument | out_of_range.

(** [isspace] in the C locale. *)
Definition isspace (c : ascii) : bool :=
  let n := Z.of_N (N_of_ascii c) in
  (n =? 32) || ((9 <=? n) && (n <=? 13)).

Definition digit (c : ascii) : option Z :=
  let n := Z.of_N (N_of_ascii c) in
  if (48 <=? n) && (n <=? 57) then Some (n - 48) else None.

Fixpoint skip_space (s : string) : string :=
  match s with
  | String c s' => if isspace c then skip_space s' else s
  | EmptyString => s
  end.

(** The longest prefix of decimal digits: its value and its length. *)
Fixpoint digits (s : string) (acc : Z) (n : nat) : Z * nat :=
  match s with
  | String c s' =>
      match digit c with
      | Some d => digits s' (10 * acc + d) (S n)
      | None => (acc, n)
      end
  | EmptyString => (acc, n)
  end.

(** [std::stoi(str)]: [strtol] in base 10 on the whole string (leading
    white space, an optional sign, digits; anything after the digits is
    left unread), [invalid_argument] when no digit was converted,
    [out_of_range] when the value does not fit an [int]. *)
Definition stoi (str : string) : exn + Z :=
  let s := skip_space str in
  let '(neg, s) :=
    match s with
    | String "-" s' => (true, s')
    | String "+" s' => (false, s')
    | _ => (false, s)
    end in
  let '(v, n) := digits s 0 0%nat in
  if Nat.eqb n 0 then inl invalid_argument
  else
    let v := if neg then - v else v in
    if Int.in_range v then inr v else inl out_of_range.

(** How [main] ends: the usage text on standard error and [return 1]; an
    exception that nothing catches; or the server running on a port with
    the global [cache_size] set. *)
Inductive outcome : Set :=
| usage_exit_1
| uncaught (e : exn)
| serving (port : Z) (cache_size : Z).

Definition main (argv : list string) : outcome :=
  let argc := Z.of_nat (List.length argv) in
  if negb (argc =? 1) && negb (argc =? 2) && negb (argc =? 3) then usage_exit_1
  else
    match (if argc >=? 2 then stoi (nth 1 argv EmptyString) else inr DEFAULT_PORT) with
    | inl e => uncaught e
    | inr port =>
        match (if argc =? 3 then stoi (nth 2 argv EmptyString)
               else inr DEFAULT_CACHE_SIZE) with
        | inl e => uncaught e
        | inr cache_size => serving (Int.to_uint16 port) cache_size
        end
    end.

End Cli.

(** ** The broker. *)

(** A session is identified by the address its [SessionPtr] holds. *)
Definition session : Type := nat.

(** One [send_cmd] on a session's socket: the object written, followed on
    the wire by CR LF.  The handlers below give their frames in the order
    they write them; [write_frames] tells which of them reach the wire
    when a write fails. *)
Definition frame : Type := session * Json.object.

Definition success : Json.object := [("success"%string, Json.Bool true)].

Definition failure (why : string) : Json.object :=
  [("success"%string, Json.Bool false); ("reason"%string, Json.Str why)].

(** Iteration order of a [std::set<SessionPtr>]: ascending addresses. *)
Definition ordered (X : gset session) : list session :=
  merge_sort Nat.le (elements X).

(** The global maps, and the state of the random engine [rng]. *)
Record state (G : Type) : Type := {
  topics : gmap string (gset session);
  topics_rev : gmap session (gset string);
  caches : gmap string (list Json.object);
  indexs : gmap string Z;
  rng : G
}.
Arguments topics {G} _.
Arguments topics_rev {G} _.
Arguments caches {G} _.
Arguments indexs {G} _.
Arguments rng {G} _.

Definition initial {G : Type} (g : G) : state G :=
  {| topics := ∅; topics_rev := ∅; caches := ∅; indexs := ∅; rng := g |}.

(** Reading [m[k]] of an [unordered_map]: the stored value, or the
    value-initialised one that [operator[]] inserts. *)
Definition subscribers {G : Type} (st : state G) (topic : string) : gset session :=
  default ∅ (topics st !! topic).

Definition subscriptions {G : Type} (st : state G) (s : session) : gset string :=
  default ∅ (topics_rev st !! s).

Definition cache {G : Type} (st : state G) (topic : string) : list Json.object :=
  default [] (caches st !! topic).

Definition next_index {G : Type} (st : state G) (topic : string) : Z :=
  default 0 (indexs st !! topic).

(** Each handler below gives the state it leaves and, in writing order,
    the frames it hands to [send_cmd].  Whether the handler returns at all
    is up to the socket: [asio::write] throws when a write fails, and
    [perform] further down settles the outcome from that of each write. *)

Section Broker.

Context {G : Type}.

(** [uniform_int_distribution<size_t> dist(a, b); dist(rng)]: the value
    drawn and the engine's next state. *)
Variable dist : G -> nat -> nat -> nat * G.

(** The global [cache_size], set once by [main]. *)
Variable cache_size : Z.

Fixpoint trim_cache (q : list Json.object) : res (list Json.object) :=
  if Int.to_int (Z.of_nat (List.length q)) >? cache_size then
    match q with
    | [] => Fault pop_front_empty
    | _ :: q' => trim_cache q'
    end
  else Ok q.

(** First loop of [send_cached]: the unseen messages, in deque order. *)
Fixpoint replay (s : session) (last_seen : Z) (q : list Json.object)
  : res (list frame) :=
  match q with
  | [] => Ok []
  | m :: q' =>
      v ← Json.at_ m "index";
      i ← Json.as_int64 v;
      rest ← replay s last_seen q';
      Ok (if i >? last_seen then (s, m) :: rest else rest)
  end.

(** Second loop of [send_cached]: the rebuilt deque [new_q]. *)
Fixpoint rebuild (last_seen : Z) (q : list Json.object)
  : res (list Json.object) :=
  match q with
  | [] => Ok []
  | m :: q' =>
      v ← Json.at_ m "index";
      i ← Json.as_int64 v;
      let idx := Int.to_int i in
      keep ← (if idx <=? last_seen then Ok true
              else d ← Json.at_ m "delivery";
                   Ok (Json.value_eqb d (Json.Str "all")));
      rest ← rebuild last_seen q';
      Ok (if (keep : bool) then m :: rest else rest)
  end.

Definition send_cached (st : state G) (s : session) (topic : string)
  (last_seen : Z) : res (state G * list frame) :=
  let q := cache st topic in
  out ← replay s last_seen q;
  new_q ← rebuild last_seen q;
  q' ← trim_cache new_q;
  Ok ({| topics := topics st; topics_rev := topics_rev st;
         caches := <[topic := q']> (caches st);
         indexs := indexs st; rng := rng st |}, out).

Definition handle_subscribe (st : state G) (s : session) (cmd : Json.object)
  : res (state G * list frame) :=
  v ← Json.at_ cmd "topic";
  topic ← Json.as_string v;
  let st1 :=
    {| topics := <[topic := {[s]} ∪ subscribers st topic]> (topics st);
       topics_rev := <[s := {[topic]} ∪ subscriptions st s]> (topics_rev st);
       caches := caches st; indexs := indexs st; rng := rng st |} in
  last_seen ← match Json.find cmd "last_seen" with
              | Some v => i ← Json.as_int64 v; Ok (Int.to_int i)
              | None => Ok (-1)
              end;
  want_cache ← (if Json.contains cmd "cache"
                then c ← Json.at_ cmd "cache"; Json.as_bool c
                else Ok true);
  if (want_cache : bool) then
    '(st2, out) ← send_cached st1 s topic last_seen;
    Ok (st2, (s, success) :: out)
  else Ok (st1, [(s, success)]).

Definition handle_unsubscribe (st : state G) (s : session) (cmd : Json.object)
  : res (state G * list frame) :=
  v ← Json.at_ cmd "topic";
  topic ← Json.as_string v;
  Ok ({| topics := <[topic := subscribers st topic ∖ {[s]}]> (topics st);
         topics_rev := <[s := subscriptions st s ∖ {[topic]}]> (topics_rev st);
         caches := caches st; indexs := indexs st; rng := rng st |},
      [(s, success)]).

(** [handle_send] takes [cmd] by reference and stamps it: the stamped
    object is returned along with the new state and the frames written. *)
Definition handle_send (st : state G) (s : session) (cmd : Json.object)
  : res (state G * list frame * Json.object) :=
  v ← Json.at_ cmd "topic";
  topic ← Json.as_string v;
  d ← Json.at_ cmd "delivery";
  delivery ← Json.as_string d;
  do_cache ← (if Json.contains cmd "cache"
              then c ← Json.at_ cmd "cache"; Json.as_bool c
              else Ok true);
  let idx := next_index st topic in
  if idx =? Int.INT_MAX then Fault int_overflow
  else
    let cmd := Json.set cmd "index" (Json.Int64 idx) in
    let subs := subscribers st topic in
    '(recipients, do_cache, g) ←
      (if String.eqb delivery "all" then Ok (subs, (do_cache : bool), rng st)
       else if Nat.eqb (size subs) 0 then Ok (∅, do_cache, rng st)
       else
         let '(r, g) := dist (rng st) 0%nat (size subs - 1)%nat in
         match ordered subs !! r with
         | Some x => Ok ({[x]}, false, g)
         | None => Fault iterator_past_end
         end);
    caches' ← (if (do_cache : bool)
               then q' ← trim_cache (cache st topic ++ [cmd]);
                    Ok (<[topic := q']> (caches st))
               else Ok (caches st));
    Ok ({| topics := <[topic := subs]> (topics st);
           topics_rev := topics_rev st;
           caches := caches';
           indexs := <[topic := idx + 1]> (indexs st);
           rng := g |},
        map (fun r => (r, cmd)) (ordered recipients) ++ [(s, success)],
        cmd).

(** The registry part of [Session::cleanup]; closing the socket is the
    caller's [closed] status. *)
Definition cleanup (st : state G) (s : session) : state G :=
  match topics_rev st !! s with
  | Some ts =>
      {| topics :=
           set_fold (fun t tp => <[t := default ∅ (tp !! t) ∖ {[s]}]> tp)
                    (topics st) ts;
         topics_rev := delete s (topics_rev st);
         caches := caches st; indexs := indexs st; rng := rng st |}
  | None => st
  end.

Definition handle_command (st : state G) (s : session) (cmd : Json.object)
  : res (state G * list frame) :=
  v ← Json.at_ cmd "command";
  c ← Json.as_string v;
  if String.eqb c "subscribe" then handle_subscribe st s cmd
  else if String.eqb c "unsubscribe" then handle_unsubscribe st s cmd
  else '(st', out, _) ← handle_send st s cmd; Ok (st', out).

(** ** The read loop. *)

Inductive status : Set := reading | closed.

(** [if (!line.empty() && line.back() == '\r') line.pop_back();] *)
Fixpoint strip_cr (line : string) : string :=
  match line with
  | EmptyString => EmptyString
  | String c EmptyString =>
      if Ascii.eqb c "013"%char then EmptyString else line
  | String c rest => String c (strip_cr rest)
  end.

(** [js::parse(line, js_err)]: [None] when [js_err] is set. *)
Variable parse : string -> option Json.value.

(** The completion handler of [async_read_until] in [Session::do_read].
    The input is [None] for [sys_err], else the line [getline] extracts;
    the status tells whether the handler re-arms the read ([reading]) or
    ran [cleanup] ([closed]). *)
Definition do_read (st : state G) (s : session) (input : option string)
  : res (state G * list frame * status) :=
  match input with
  | None => Ok (cleanup st s, [], closed)
  | Some l =>
      let line := strip_cr l in
      if String.eqb line "quit" then Ok (cleanup st s, [], closed)
      else if String.eqb line "" then Ok (st, [], reading)
      else if negb (valid_utf8 line) then
        Ok (st, [(s, failure "Could not decode input as UTF-8")], reading)
      else
        match parse line with
        | None => Ok (st, [(s, failure "Could not parse json")], reading)
        | Some (Json.Object o) =>
            if verify_command o then
              '(st', out) ← handle_command st s o; Ok (st', out, reading)
            else Ok (st, [(s, failure "Malformed json message")], reading)
        | Some _ => Ok (st, [(s, failure "Malformed json message")], reading)
        end
  end.

(** ** Runs of the event loop, at the level of the handlers it invokes. *)

Inductive event : Type :=
| Command (s : session) (cmd : Json.object)
| Disconnect (s : session).

Definition step (st : state G) (ev : event) : res (state G * list frame) :=
  match ev with
  | Command s cmd => handle_command st s cmd
  | Disconnect s => Ok (cleanup st s, [])
  end.

Fixpoint run (st : state G) (evs : list event) : res (state G * list frame) :=
  match evs with
  | [] => Ok (st, [])
  | ev :: evs' =>
      '(st1, out1) ← step st ev;
      '(st2, out2) ← run st1 evs';
      Ok (st2, out1 ++ out2)
  end.

End Broker.

(** [do_read] dispatches only what [verify_command] accepts. *)
Definition verified (ev : event) : bool :=
  match ev with
  | Command _ cmd => verify_command cmd
  | Disconnect _ => true
  end.

(** The states of the running broker.  A run goes on only while every
    handler returns: a fault, or a write that throws, ends the process. *)
Definition reachable {G : Type} (dist : G -> nat -> nat -> nat * G)
  (cache_size : Z) (st : state G) : Prop :=
  exists (g : G) (evs : list event) (out : list frame),
    forallb verified evs = true /\
    run dist cache_size (initial g) evs = Ok (st, out).

(** ** Socket writes.

    [send_raw] is [asio::write], which throws [boost::system::system_error]
    when the write fails; no handler, nor the read loop, nor [main] catches
    it, so the exception leaves [io.run()] and the process ends.  The
    oracle [writes] tells whether the i-th write of a handler succeeds.
    A handler's frames are written in order, up to the first write that
    throws. *)

Inductive transmission : Type :=
| all_written (written : list frame)
| write_threw (written : list frame) (failed : frame).

Fixpoint write_frames_from (writes : nat -> bool) (i : nat) (out : list frame)
  : transmission :=
  match out with
  | [] => all_written []
  | f :: out' =>
      if writes i then
        match write_frames_from writes (S i) out' with
        | all_written w => all_written (f :: w)
        | write_threw w x => write_threw (f :: w) x
        end
      else write_threw [] f
  end.

Definition write_frames (writes : nat -> bool) (out : list frame)
  : transmission :=
  write_frames_from writes 0 out.

(** What becomes of one invocation of a handler.  The handlers above give
    the state they leave and the frames they write when no write throws;
    [perform] runs such a result against the oracle: the handler returns
    with all its frames written, or the first write that throws ends the
    process with the frames before it written, or the handler itself
    raised a fault. *)
Inductive outcome (A : Type) : Type :=
| returned (a : A) (written : list frame)
| terminated (written : list frame) (failed : frame)
| raised (f : fault).
Arguments returned {A} _ _.
Arguments terminated {A} _ _.
Arguments raised {A} _.

Definition perform {A : Type} (writes : nat -> bool) (r : res (A * list frame))
  : outcome A :=
  match r with
  | Ok (a, out) =>
      match write_frames writes out with
      | all_written w => returned a w
      | write_threw w x => terminated w x
      end
  | Fault f => raised f
  end.

(** ** Vocabulary of the specification. *)

(** The [index] stamped on a message, and its [delivery] mode. *)
Definition msg_index (m : Json.object) : Z :=
  match Json.find m "index" with Some (Json.Int64 i) => i | _ => 0 end.

Definition msg_delivery (m : Json.object) : string :=
  match Json.find m "delivery" with Some (Json.Str d) => d | _ => EmptyString end.

Definition msg_topic (m : Json.object) : string :=
  match Json.find m "topic" with Some (Json.Str t) => t | _ => EmptyString end.

(** The optional [cache] flag of a command, [true] when absent. *)
Definition cache_flag (cmd : Json.object) : bool :=
  match Json.find cmd "cache" with Some (Json.Bool b) => b | _ => true end.

(** The optional [last_seen] of a subscribe command, [-1] when absent. *)
Definition last_seen_of (cmd : Json.object) : Z :=
  match Json.find cmd "last_seen" with Some (Json.Int64 k) => k | _ => -1 end.

Definition is_command (name : string) (cmd : Json.object) : bool :=
  match Json.find cmd "command" with
  | Some (Json.Str c) => String.eqb c name
  | _ => false
  end.

(** A cached message carries an index below the topic's next index and a
    delivery mode. *)
Definition well_stamped (next : Z) (m : Json.object) : Prop :=
  exists i d,
    Json.find m "index" = Some (Json.Int64 i) /\
    (0 <= i < next) /\
    Json.find m "delivery" = Some (Json.Str d) /\
    (d = "all"%string \/ d = "one"%string).

Definition increasing (q : list Json.object) : Prop :=
  StronglySorted (fun a b => msg_index a < msg_index b) q.

Definition cache_ok {G : Type} (st : state G) : Prop :=
  forall T : string,
    Forall (well_stamped (next_index st T)) (cache st T) /\
    increasing (cache st T) /\
    (0 <= next_index st T <= Int.INT_MAX) /\
    Z.of_nat (List.length (cache st T)) <= next_index st T.

(** The registry's two directions agree. *)
Definition bidirectional {G : Type} (st : state G) : Prop :=
  forall (T : string) (S : session),
    S ∈ subscribers st T <-> T ∈ subscriptions st S.

(** The draw of [uniform_int_distribution(a, b)] lies in [a..b]. *)
Definition in_range_dist {G : Type} (dist : G -> nat -> nat -> nat * G) : Prop :=
  forall (g : G) (a b : nat), (a <= b)%nat -> (a <= fst (dist g a b) <= b)%nat.

(** The send commands to a topic among the events of a run. *)
Definition sends_to (T : string) (ev : event) : bool :=
  match ev with
  | Command _ cmd => is_command "send" cmd && String.eqb (msg_topic cmd) T
  | Disconnect _ => false
  end.

Definition count_sends (T : string) (evs : list event) : nat :=
  List.length (List.filter (sends_to T) evs).

(** The message [handle_send] stamps when an event is a send command, and
    the messages stamped during a run, in processing order. *)
Definition stamp_of {G : Type} (dist : G -> nat -> nat -> nat * G)
  (cache_size : Z) (st : state G) (ev : event) : list Json.object :=
  match ev with
  | Command s cmd =>
      if is_command "send" cmd then
        match handle_send dist cache_size st s cmd with
        | Ok (_, _, cmd') => [cmd']
        | Fault _ => []
        end
      else []
  | Disconnect _ => []
  end.

Fixpoint stamps {G : Type} (dist : G -> nat -> nat -> nat * G) (cache_size : Z)
  (st : state G) (evs : list event) : list Json.object :=
  match evs with
  | [] => []
  | ev :: evs' =>
      match step dist cache_size st ev with
      | Ok (st1, _) =>
          stamp_of dist cache_size st ev ++ stamps dist cache_size st1 evs'
      | Fault _ => []
      end
  end.

(** The stamped messages that went to one topic. *)
Definition to_topic (T : string) (ms : list Json.object) : list Json.object :=
  List.filter (fun m => String.eqb (msg_topic m) T) ms.

(** How [handle_send] picks the recipients and settles [do_cache]. *)
Definition selection (d : string) (subs : gset session) (flag : bool)
  (recipients : gset session) (do_cache : bool) : Prop :=
  (d = "all"%string /\ recipients = subs /\ do_cache = flag) \/
  (d <> "all"%string /\ subs = ∅ /\ recipients = ∅ /\ do_cache = flag) \/
  (d <> "all"%string /\ subs <> ∅ /\
   exists x, x ∈ subs /\ recipients = {[x]} /\ do_cache = false).

(** The tests of the two loops of [send_cached]: a message is replayed
    when its index is above [last_seen], and kept by the rebuild when its
    index is at most [last_seen] or its delivery is "all". *)
Definition unseen (last_seen : Z) (m : Json.object) : bool :=
  msg_index m >? last_seen.

Definition kept (last_seen : Z) (m : Json.object) : bool :=
  (msg_index m <=? last_seen) || String.eqb (msg_delivery m) "all".

(** A topic's cache holds at most [cache_size] messages, all of them
    published to that topic. *)
Definition cache_bounded {G : Type} (cache_size : Z) (st : state G) : Prop :=
  forall T : string, Z.of_nat (List.length (cache st T)) <= cache_size.

Definition cache_topics {G : Type} (st : state G) : Prop :=
  forall T : string, Forall (fun m => msg_topic m = T) (cache st T).

(** The three cache invariants together. *)
Definition cache_shaped {G : Type} (cache_size : Z) (st : state G) : Prop :=
  cache_ok st /\ cache_bounded cache_size st /\ cache_topics st.

(** The keys a send command and a subscribe command may carry. *)
Definition send_keys : list string :=
  ["command"; "topic"; "msg"; "delivery"; "cache"]%string.

Definition subscribe_keys : list string :=
  ["command"; "topic"; "last_seen"; "cache"]%string.

(** A field that is absent, or present with a value of the given kind. *)
Definition optional_kind (o : Json.object) (k : string) (kd : Json.kind) : Prop :=
  match Json.find o k with
  | None => True
  | Some v => Json.kind_of v = kd
  end.

(** ** Sample data for the examples below. *)

Module Sample.

Local Open Scope string_scope.

(** A deterministic stand-in for the random engine: the state counts the
    draws, and draw [g] from [a..b] is [a + g mod (b - a + 1)]. *)
Definition dist (g a b : nat) : nat * nat :=
  ((a + g mod (b - a + 1))%nat, S g).

Definition send (topic msg delivery : string) : Json.object :=
  [("command", Json.Str "send"); ("topic", Json.Str topic);
   ("msg", Json.Str msg); ("delivery", Json.Str delivery)].

Definition send_nocache (topic msg delivery : string) : Json.object :=
  (send topic msg delivery ++ [("cache", Json.Bool false)])%list.

Definition subscribe (topic : string) : Json.object :=
  [("command", Json.Str "subscribe"); ("topic", Json.Str topic)].

Definition subscribe_from (topic : string) (last_seen : Z) : Json.object :=
  (subscribe topic ++ [("last_seen", Json.Int64 last_seen)])%list.

Definition subscribe_nocache (topic : string) : Json.object :=
  (subscribe topic ++ [("cache", Json.Bool false)])%list.

Definition unsubscribe (topic : string) : Json.object :=
  [("command", Json.Str "unsubscribe"); ("topic", Json.Str topic)].

Definition stamped (cmd : Json.object) (idx : Z) : Json.object :=
  (cmd ++ [("index", Json.Int64 idx)])%list.

(** The one-byte record 0xFF. *)
Definition byte_ff : string := String (ascii_of_nat 255) EmptyString.

(** The state a run from the initial state ends in, with capacity 100. *)
Definition after (evs : list event) : state nat :=
  match run dist 100 (initial 0%nat) evs with
  | Ok (st, _) => st
  | Fault _ => initial 0%nat
  end.

(** The state a run from the initial state ends in, with a given capacity. *)
Definition after_with (cache_size : Z) (evs : list event) : state nat :=
  match run dist cache_size (initial 0%nat) evs with
  | Ok (st, _) => st
  | Fault _ => initial 0%nat
  end.

(** The frames a run from the initial state writes, with capacity 100. *)
Definition written (evs : list event) : option (list frame) :=
  match run dist 100 (initial 0%nat) evs with
  | Ok (_, out) => Some out
  | Fault _ => None
  end.

End Sample.

(* ===================================================================== *)
(** * Part II: properties                                                 *)
(* ===================================================================== *)

(** ** Machine integers *)

Lemma to_int_id (z : Z) : Int.in_range z = true -> Int.to_int z = z.
Proof.
  unfold Int.in_range, Int.to_int, Int.INT_MIN, Int.INT_MAX.
  intros H. apply andb_true_iff in H as [H1 H2].
  apply Z.leb_le in H1, H2.
  rewrite Z.mod_small; lia.
Qed.



Lemma to_int_small (z : Z) : 0 <= z <= Int.INT_MAX -> Int.to_int z = z.
Proof.
  intros H. apply to_int_id. unfold Int.in_range, Int.INT_MIN.
  unfold Int.INT_MAX in *.
  apply andb_true_iff; split; apply Z.leb_le; lia.
Qed.

(** ** The error monad *)

Lemma bind_Ok {A B : Type} (m : res A) (k : A -> res B) (b : B) :
  m ≫= k = Ok b -> exists a, m = Ok a /\ k a = Ok b.
Proof. destruct m as [a|f]; simpl; [eauto | discriminate]. Qed.

(** ** [trim_cache] *)

Section TrimCache.

Variable cache_size : Z.

Lemma trim_cache_unfold (q : list Json.object) :
  trim_cache cache_size q =
  if Int.to_int (Z.of_nat (List.length q)) >? cache_size then
    match q with
    | [] => Fault pop_front_empty
    | _ :: q' => trim_cache cache_size q'
    end
  else Ok q.
Proof. destruct q; reflexivity. Qed.

(** Whatever the capacity, a result of [trim_cache] is what is left after
    dropping entries from the front. *)
Lemma trim_cache_suffix (q q' : list Json.object) :
  trim_cache cache_size q = Ok q' -> exists front, q = front ++ q'.
Proof.
  revert q'. induction q as [|m q IH]; intros q' H.
  - rewrite trim_cache_unfold in H.
    destruct (_ >? _); [discriminate|]. injection H as <-. by exists [].
  - rewrite trim_cache_unfold in H.
    destruct (_ >? _).
    + apply IH in H as [front ->]. by exists (m :: front).
    + injection H as <-. by exists [].
Qed.

Lemma trim_cache_keeps_last (q : list Json.object) :
  0 <= cache_size ->
  Z.of_nat (List.length q) <= Int.INT_MAX ->
  trim_cache cache_size q =
  Ok (drop (List.length q - Z.to_nat cache_size) q).
Proof.
  intros Hc. induction q as [|m q IH]; intros Hlen;
    rewrite trim_cache_unfold, to_int_small by (simpl in *; lia);
    match goal with
    | |- context [?a >? cache_size] =>
        destruct (Z.gtb_spec a cache_size) as [Hgt|Hle]
    end; simpl List.length in *.
  - lia.
  - reflexivity.
  - rewrite IH by lia.
    replace (S (List.length q) - Z.to_nat cache_size)%nat
      with (S (List.length q - Z.to_nat cache_size))%nat by lia.
    reflexivity.
  - replace (S (List.length q) - Z.to_nat cache_size)%nat with 0%nat by lia.
    reflexivity.
Qed.

Lemma trim_cache_negative (q : list Json.object) :
  cache_size < 0 ->
  Z.of_nat (List.length q) <= Int.INT_MAX ->
  trim_cache cache_size q = Fault pop_front_empty.
Proof.
  intros Hc. induction q as [|m q IH]; intros Hlen;
    rewrite trim_cache_unfold, to_int_small by (simpl in *; lia);
    match goal with
    | |- context [?a >? cache_size] =>
        destruct (Z.gtb_spec a cache_size) as [Hgt|Hle]
    end; simpl List.length in *.
  - reflexivity.
  - lia.
  - apply IH. lia.
  - lia.
Qed.

End TrimCache.

(** ** The command line *)

Lemma main_arg_count (argv : list string) :
  Cli.main argv = Cli.usage_exit_1 <->
  ~ (1 <= List.length argv <= 3)%nat.
Proof.
  destruct argv as [|a0 [|a1 [|a2 [|a3 rest]]]]; simpl List.length.
  - split; [intros _; lia | reflexivity].
  - split; [intros H; discriminate H | intros H; lia].
  - change (Cli.main [a0; a1]) with
      (match Cli.stoi a1 with
       | inl e => Cli.uncaught e
       | inr port => Cli.serving (Int.to_uint16 port) Cli.DEFAULT_CACHE_SIZE
       end).
    destruct (Cli.stoi a1); (split; [intros H; discriminate H | intros H; lia]).
  - change (Cli.main [a0; a1; a2]) with
      (match Cli.stoi a1 with
       | inl e => Cli.uncaught e
       | inr port =>
           match Cli.stoi a2 with
           | inl e => Cli.uncaught e
           | inr cs => Cli.serving (Int.to_uint16 port) cs
           end
       end).
    destruct (Cli.stoi a1); [|destruct (Cli.stoi a2)];
      (split; [intros H; discriminate H | intros H; lia]).
  - unfold Cli.main. simpl List.length.
    replace (negb (Z.of_nat (S (S (S (S (List.length rest))))) =? 1) &&
             negb (Z.of_nat (S (S (S (S (List.length rest))))) =? 2) &&
             negb (Z.of_nat (S (S (S (S (List.length rest))))) =? 3))
      with true.
    + split; [intros _; lia | reflexivity].
    + symmetry. rewrite !andb_true_iff, !negb_true_iff, !Z.eqb_neq. lia.
Qed.

(** C3, counterexample: a non-numeric port, or a non-numeric cache size,
    makes [std::stoi] throw [invalid_argument]; nothing catches it, so no
    usage text is printed and [main] does not return 1. *)
Lemma main_non_numeric_argument :
  Cli.main ["aiomemq"; "abc"]%string = Cli.uncaught Cli.invalid_argument /\
  Cli.main ["aiomemq"; "7000"; "lots"]%string = Cli.uncaught Cli.invalid_argument /\
  Cli.main ["aiomemq"; "abc"]%string <> Cli.usage_exit_1 /\
  Cli.main ["aiomemq"; "7000"; "lots"]%string <> Cli.usage_exit_1.
Proof. repeat split; (reflexivity || discriminate). Qed.

(** C3, as the code has it: [main] prints the usage text and returns 1
    exactly when the number of arguments is outside {0, 1, 2}; with an
    argument count in range, an argument that [std::stoi] rejects ends the
    program with that uncaught exception instead. *)
Theorem main_usage_only_for_arg_count :
  (forall argv : list string,
      Cli.main argv = Cli.usage_exit_1 <->
      ~ (1 <= List.length argv <= 3)%nat) /\
  (forall (prog port : string) (rest : list string) (e : Cli.exn),
      (List.length rest <= 1)%nat ->
      Cli.stoi port = inl e ->
      Cli.main (prog :: port :: rest) = Cli.uncaught e) /\
  (forall (prog port size : string) (p : Z) (e : Cli.exn),
      Cli.stoi port = inr p ->
      Cli.stoi size = inl e ->
      Cli.main [prog; port; size] = Cli.uncaught e).
Proof.
  split; [exact main_arg_count|]. split.
  - intros prog port [|size [|x rest]] e Hlen Hport; simpl in Hlen; try lia.
    + change (Cli.main [prog; port]) with
        (match Cli.stoi port with
         | inl e => Cli.uncaught e
         | inr p => Cli.serving (Int.to_uint16 p) Cli.DEFAULT_CACHE_SIZE
         end).
      by rewrite Hport.
    + change (Cli.main [prog; port; size]) with
        (match Cli.stoi port with
         | inl e => Cli.uncaught e
         | inr p =>
             match Cli.stoi size with
             | inl e => Cli.uncaught e
             | inr cs => Cli.serving (Int.to_uint16 p) cs
             end
         end).
      by rewrite Hport.
  - intros prog port size p e Hport Hsize.
    change (Cli.main [prog; port; size]) with
      (match Cli.stoi port with
       | inl e => Cli.uncaught e
       | inr p =>
           match Cli.stoi size with
           | inl e => Cli.uncaught e
           | inr cs => Cli.serving (Int.to_uint16 p) cs
           end
       end).
    by rewrite Hport, Hsize.
Qed.

Lemma main_usage_only_for_arg_count_witness :
  Cli.main ["aiomemq"; "1"; "2"; "3"]%string = Cli.usage_exit_1 /\
  Cli.main ["aiomemq"; "x1"]%string = Cli.uncaught Cli.invalid_argument /\
  Cli.main ["aiomemq"; "7000"; "99999999999"]%string =
    Cli.uncaught Cli.out_of_range.
Proof.
  destruct main_usage_only_for_arg_count as (H1 & H2 & H3).
  split; [|split].
  - apply H1. simpl. lia.
  - apply H2; [simpl; lia | reflexivity].
  - apply (H3 _ _ _ 7000); reflexivity.
Defined.

(** ** JSON objects *)

Lemma find_set_eq (o : Json.object) (k : string) (v : Json.value) :
  Json.find (Json.set o k v) k = Some v.
Proof.
  induction o as [|[k0 v0] o IH]; simpl.
  - by rewrite String.eqb_refl.
  - destruct (String.eqb_spec k0 k) as [->|Hne]; simpl.
    + by rewrite String.eqb_refl.
    + destruct (String.eqb_spec k0 k); [done | exact IH].
Qed.

Lemma find_set_ne (o : Json.object) (k k' : string) (v : Json.value) :
  k <> k' -> Json.find (Json.set o k v) k' = Json.find o k'.
Proof.
  intros Hne. induction o as [|[k0 v0] o IH]; simpl.
  - destruct (String.eqb_spec k k'); [done | reflexivity].
  - destruct (String.eqb_spec k0 k) as [->|Hne0]; simpl.
    + destruct (String.eqb_spec k k'); [done | reflexivity].
    + destruct (String.eqb_spec k0 k'); [reflexivity | exact IH].
Qed.

Lemma set_absent (o : Json.object) (k : string) (v : Json.value) :
  Json.find o k = None -> Json.set o k v = o ++ [(k, v)].
Proof.
  induction o as [|[k0 v0] o IH]; simpl; [done|].
  destruct (String.eqb_spec k0 k); [discriminate|].
  intros H. by rewrite IH.
Qed.

(** ** What [verify_command] guarantees *)

Lemma keys_in_template (t : Template) (o : Json.object) (k : string) :
  forallb (fun e => template_contains t (fst e)) o = true ->
  template_contains t k = false ->
  Json.find o k = None.
Proof.
  intros Ho Hk. induction o as [|[k0 v0] o IH]; simpl in *; [done|].
  apply andb_true_iff in Ho as [Hk0 Ho].
  destruct (String.eqb_spec k0 k) as [->|_]; [congruence | by apply IH].
Qed.

Lemma field_ok_string (o : Json.object) (k : string) (vs : list Json.value) :
  field_ok o k {| fs_kind := Json.k_string; required := true; values := vs |}
    = true ->
  exists s, Json.find o k = Some (Json.Str s) /\
            (vs = [] \/ existsb (fun a => Json.value_eqb a (Json.Str s)) vs = true).
Proof.
  unfold field_ok. destruct (Json.find o k) as [v|]; [|discriminate].
  destruct v; simpl; try discriminate.
  intros H. eexists; split; [reflexivity|].
  destruct vs; [by left | by right].
Qed.

Lemma field_ok_optional (o : Json.object) (k : string) (kd : Json.kind) :
  field_ok o k {| fs_kind := kd; required := false; values := [] |} = true ->
  Json.find o k = None \/
  exists v, Json.find o k = Some v /\ Json.kind_of v = kd.
Proof.
  unfold field_ok. destruct (Json.find o k) as [v|]; [|by left].
  simpl. intros H. right. exists v. split; [done|].
  destruct (Json.kind_of v), kd; simpl in H; congruence.
Qed.

Lemma verify_command_cases (o : Json.object) :
  verify_command o = true ->
  (is_command "subscribe" o = true /\ template_match template_subscribe o = true) \/
  (is_command "unsubscribe" o = true /\ template_match template_unsubscribe o = true) \/
  (is_command "send" o = true /\ template_match template_send o = true).
Proof.
  unfold verify_command, is_command.
  destruct (Json.find o "command") as [[]|]; try discriminate.
  destruct (String.eqb s "subscribe"); [by left|].
  destruct (String.eqb s "unsubscribe"); [by right; left|].
  destruct (String.eqb s "send"); [by right; right | discriminate].
Qed.

Lemma is_command_find (name : string) (o : Json.object) :
  is_command name o = true -> Json.find o "command" = Some (Json.Str name).
Proof.
  unfold is_command. destruct (Json.find o "command") as [[]|]; try discriminate.
  intros H. by apply String.eqb_eq in H as ->.
Qed.

Lemma verify_send (o : Json.object) :
  verify_command o = true -> is_command "send" o = true ->
  exists T d,
    Json.find o "topic" = Some (Json.Str T) /\
    Json.find o "delivery" = Some (Json.Str d) /\
    (d = "all"%string \/ d = "one"%string) /\
    Json.find o "cache" = (if Json.contains o "cache"
                           then Some (Json.Bool (cache_flag o)) else None) /\
    Json.find o "index" = None.
Proof.
  intros Hv Hs. pose proof (is_command_find _ _ Hs) as Hc.
  unfold verify_command in Hv. rewrite Hc in Hv. simpl in Hv.
  unfold template_match in Hv. apply andb_true_iff in Hv as [Hkeys Hfields].
  simpl in Hfields.
  repeat (apply andb_true_iff in Hfields as [? Hfields]).
  destruct (field_ok_string _ _ _ H0) as (T & HT & _).
  destruct (field_ok_string _ _ _ H2) as (d & Hd & Hdv).
  exists T, d. split; [done|]. split; [done|]. split.
  - destruct Hdv as [|Hdv]; [discriminate|].
    change (String.eqb "all" d || (String.eqb "one" d || false) = true) in Hdv.
    destruct (String.eqb_spec "all" d); [by left|].
    destruct (String.eqb_spec "one" d); [by right | discriminate Hdv].
  - split.
    + unfold Json.contains, cache_flag.
      destruct (field_ok_optional _ _ _ H3) as [->|(v & -> & Hk)]; [done|].
      destruct v; simpl in Hk; try discriminate. reflexivity.
    + eapply keys_in_template; [exact Hkeys | reflexivity].
Qed.

Lemma verify_subscribe (o : Json.object) :
  verify_command o = true -> is_command "subscribe" o = true ->
  exists T,
    Json.find o "topic" = Some (Json.Str T) /\
    Json.find o "last_seen" = (if Json.contains o "last_seen"
                               then Some (Json.Int64 (last_seen_of o)) else None) /\
    Json.find o "cache" = (if Json.contains o "cache"
                           then Some (Json.Bool (cache_flag o)) else None).
Proof.
  intros Hv Hs. pose proof (is_command_find _ _ Hs) as Hc.
  unfold verify_command in Hv. rewrite Hc in Hv. simpl in Hv.
  unfold template_match in Hv. apply andb_true_iff in Hv as [Hkeys Hfields].
  simpl in Hfields.
  repeat (apply andb_true_iff in Hfields as [? Hfields]).
  destruct (field_ok_string _ _ _ H0) as (T & HT & _).
  exists T. split; [done|]. split.
  - unfold Json.contains, last_seen_of.
    destruct (field_ok_optional _ _ _ H1) as [->|(v & -> & Hk)]; [done|].
    destruct v; simpl in Hk; try discriminate. reflexivity.
  - unfold Json.contains, cache_flag.
    destruct (field_ok_optional _ _ _ H2) as [->|(v & -> & Hk)]; [done|].
    destruct v; simpl in Hk; try discriminate. reflexivity.
Qed.

Lemma verify_unsubscribe (o : Json.object) :
  verify_command o = true -> is_command "unsubscribe" o = true ->
  exists T, Json.find o "topic" = Some (Json.Str T).
Proof.
  intros Hv Hs. pose proof (is_command_find _ _ Hs) as Hc.
  unfold verify_command in Hv. rewrite Hc in Hv. simpl in Hv.
  unfold template_match in Hv. apply andb_true_iff in Hv as [Hkeys Hfields].
  simpl in Hfields.
  repeat (apply andb_true_iff in Hfields as [? Hfields]).
  destruct (field_ok_string _ _ _ H0) as (T & HT & _). by exists T.
Qed.

Lemma at_Ok (o : Json.object) (k : string) (v : Json.value) :
  Json.at_ o k = Ok v -> Json.find o k = Some v.
Proof. unfold Json.at_. destruct (Json.find o k); congruence. Qed.

Lemma as_string_Ok (v : Json.value) (s : string) :
  Json.as_string v = Ok s -> v = Json.Str s.
Proof. destruct v; simpl; congruence. Qed.

Lemma as_int64_Ok (v : Json.value) (i : Z) :
  Json.as_int64 v = Ok i -> v = Json.Int64 i.
Proof. destruct v; simpl; congruence. Qed.

Lemma as_bool_Ok (v : Json.value) (b : bool) :
  Json.as_bool v = Ok b -> v = Json.Bool b.
Proof. destruct v; simpl; congruence. Qed.

(** Reading a string field: [string(cmd.at(k).as_string())]. *)
Lemma string_field_Ok {B : Type} (o : Json.object) (k : string)
  (f : string -> res B) (b : B) :
  (Json.at_ o k ≫= fun v => Json.as_string v ≫= f) = Ok b ->
  exists s, Json.find o k = Some (Json.Str s) /\ f s = Ok b.
Proof.
  intros H. apply bind_Ok in H as (v & Hv & H).
  apply bind_Ok in H as (s & Hs & H).
  apply at_Ok in Hv. apply as_string_Ok in Hs. subst. eauto.
Qed.

(** Reading the optional [cache] flag. *)
Lemma cache_field_Ok {B : Type} (o : Json.object) (f : bool -> res B) (b : B) :
  ((if Json.contains o "cache"
    then Json.at_ o "cache" ≫= fun c => Json.as_bool c
    else Ok true) ≫= f) = Ok b ->
  f (cache_flag o) = Ok b.
Proof.
  intros H. apply bind_Ok in H as (flag & Hflag & H).
  unfold Json.contains, Json.at_, cache_flag in *.
  destruct (Json.find o "cache") as [v|]; simpl in Hflag.
  - apply as_bool_Ok in Hflag. by subst.
  - by injection Hflag as <-.
Qed.

(** ** The ordered enumeration of a subscriber set *)

Lemma elem_of_ordered (X : gset session) (x : session) :
  x ∈ ordered X <-> x ∈ X.
Proof.
  unfold ordered. rewrite merge_sort_Permutation. apply elem_of_elements.
Qed.



Lemma ordered_length (X : gset session) : List.length (ordered X) = size X.
Proof. unfold ordered. by rewrite merge_sort_Permutation. Qed.

(** ** The handlers, one by one *)

Section Handlers.

Context {G : Type}.
Variable dist : G -> nat -> nat -> nat * G.
Variable cache_size : Z.

Lemma handle_send_inv (st st' : state G) (s : session) (cmd cmd' : Json.object)
  (out : list frame) :
  handle_send dist cache_size st s cmd = Ok (st', out, cmd') ->
  exists (T d : string) (recipients : gset session) (do_cache : bool),
    Json.find cmd "topic" = Some (Json.Str T) /\
    Json.find cmd "delivery" = Some (Json.Str d) /\
    next_index st T <> Int.INT_MAX /\
    cmd' = Json.set cmd "index" (Json.Int64 (next_index st T)) /\
    selection d (subscribers st T) (cache_flag cmd) recipients do_cache /\
    (if do_cache
     then exists q', trim_cache cache_size (cache st T ++ [cmd']) = Ok q' /\
                     caches st' = <[T := q']> (caches st)
     else caches st' = caches st) /\
    topics st' = <[T := subscribers st T]> (topics st) /\
    topics_rev st' = topics_rev st /\
    indexs st' = <[T := next_index st T + 1]> (indexs st) /\
    out = map (fun r => (r, cmd')) (ordered recipients) ++ [(s, success)].
Proof.
  unfold handle_send. intros H.
  apply string_field_Ok in H as (T & HT & H).
  apply string_field_Ok in H as (d & Hd & H).
  apply cache_field_Ok in H.
  destruct (Z.eqb_spec (next_index st T) Int.INT_MAX) as [|Hidx]; [discriminate|].
  apply bind_Ok in H as ([[recipients do_cache] g] & Hsel & H).
  apply bind_Ok in H as (caches' & Hcaches & H).
  injection H as <- <- <-.
  exists T, d, recipients, do_cache. simpl.
  repeat (split; [done|]).
  split; [|split; [|done]].
  - unfold selection.
    destruct (String.eqb_spec d "all") as [->|Hd'].
    + injection Hsel as <- <- <-. by left.
    + right. destruct (Nat.eqb_spec (size (subscribers st T)) 0) as [Hsz|Hsz].
      * injection Hsel as <- <- <-. left.
        by apply size_empty_inv, leibniz_equiv in Hsz.
      * right. destruct (dist _ _ _) as [r g'].
        destruct (ordered (subscribers st T) !! r) as [x|] eqn:Hx; [|discriminate].
        injection Hsel as <- <- <-.
        split; [done|]. split.
        { intros Hemp. rewrite Hemp, size_empty in Hsz. done. }
        exists x. split; [|done].
        apply elem_of_ordered. by eapply list_elem_of_lookup_2.
  - destruct do_cache.
    + apply bind_Ok in Hcaches as (q' & Hq' & Hcaches).
      injection Hcaches as <-. eauto.
    + by injection Hcaches as <-.
Qed.

End Handlers.

(** ** Lists filtered by a boolean test *)

Lemma Forall_bfilter {A : Type} (P : A -> Prop) (f : A -> bool) (l : list A) :
  Forall P l -> Forall P (List.filter f l).
Proof.
  induction 1 as [|x l Hx Hl IH]; simpl; [constructor|].
  destruct (f x); [by constructor | done].
Qed.

Lemma StronglySorted_bfilter {A : Type} (R : A -> A -> Prop) (f : A -> bool)
  (l : list A) :
  StronglySorted R l -> StronglySorted R (List.filter f l).
Proof.
  induction 1 as [|x l Hl IH Hx]; simpl; [constructor|].
  destruct (f x); [|done].
  constructor; [done | by apply Forall_bfilter].
Qed.

(** ** The two loops of [send_cached] on a well-formed cache *)

Lemma well_stamped_mono (n n' : Z) (m : Json.object) :
  n <= n' -> well_stamped n m -> well_stamped n' m.
Proof.
  intros Hn (i & d & Hi & Hr & Hd & Hv). exists i, d.
  repeat split; try done; lia.
Qed.

Lemma well_stamped_index (n : Z) (m : Json.object) :
  well_stamped n m ->
  Json.find m "index" = Some (Json.Int64 (msg_index m)) /\
  0 <= msg_index m < n.
Proof.
  intros (i & d & Hi & Hr & _). unfold msg_index. rewrite Hi. done.
Qed.

Lemma well_stamped_delivery (n : Z) (m : Json.object) :
  well_stamped n m ->
  Json.find m "delivery" = Some (Json.Str (msg_delivery m)) /\
  (msg_delivery m = "all"%string \/ msg_delivery m = "one"%string).
Proof.
  intros (i & d & _ & _ & Hd & Hv). unfold msg_delivery. rewrite Hd. done.
Qed.

Lemma replay_stamped (n : Z) (s : session) (last_seen : Z)
  (q : list Json.object) :
  Forall (well_stamped n) q ->
  replay s last_seen q = Ok (map (pair s) (List.filter (unseen last_seen) q)).
Proof.
  induction 1 as [|m q Hm Hq IH]; simpl; [done|].
  destruct (well_stamped_index _ _ Hm) as [Hi _].
  unfold Json.at_. rewrite Hi. simpl. rewrite IH. simpl.
  unfold unseen. by destruct (msg_index m >? last_seen).
Qed.

Lemma rebuild_stamped (n : Z) (last_seen : Z) (q : list Json.object) :
  n <= Int.INT_MAX ->
  Forall (well_stamped n) q ->
  rebuild last_seen q = Ok (List.filter (kept last_seen) q).
Proof.
  intros Hn. induction 1 as [|m q Hm Hq IH]; simpl; [done|].
  destruct (well_stamped_index _ _ Hm) as [Hi Hr].
  destruct (well_stamped_delivery _ _ Hm) as [Hd _].
  unfold Json.at_. rewrite Hi. simpl.
  rewrite to_int_small by lia. unfold kept.
  destruct (msg_index m <=? last_seen); simpl.
  - by rewrite IH.
  - rewrite Hd. simpl. rewrite IH. simpl.
    by destruct (String.eqb (msg_delivery m) "all").
Qed.

(** ** Reading the maps after an update *)

Lemma default_insert `{Countable K} {A : Type} (d : A) (m : gmap K A)
  (k k' : K) (v : A) :
  default d (<[k := v]> m !! k') =
  if decide (k = k') then v else default d (m !! k').
Proof.
  rewrite lookup_insert. by destruct (decide (k = k')).
Qed.

Lemma last_seen_field_Ok {B : Type} (cmd : Json.object) (f : Z -> res B) (b : B) :
  (match Json.find cmd "last_seen" with
   | Some v => Json.as_int64 v ≫= fun i => Ok (Int.to_int i)
   | None => Ok (-1)
   end ≫= f) = Ok b ->
  f (Int.to_int (last_seen_of cmd)) = Ok b.
Proof.
  intros H. apply bind_Ok in H as (k & Hk & H). unfold last_seen_of.
  destruct (Json.find cmd "last_seen") as [v|].
  - apply bind_Ok in Hk as (i & Hi & Hk). apply as_int64_Ok in Hi as ->.
    by injection Hk as <-.
  - by injection Hk as <-.
Qed.

Section Inversions.

Context {G : Type}.
Variable dist : G -> nat -> nat -> nat * G.
Variable cache_size : Z.

Lemma handle_subscribe_inv (st st' : state G) (s : session) (cmd : Json.object)
  (out : list frame) :
  handle_subscribe cache_size st s cmd = Ok (st', out) ->
  exists T : string,
    Json.find cmd "topic" = Some (Json.Str T) /\
    topics st' = <[T := {[s]} ∪ subscribers st T]> (topics st) /\
    topics_rev st' = <[s := {[T]} ∪ subscriptions st s]> (topics_rev st) /\
    indexs st' = indexs st /\
    rng st' = rng st /\
    (if cache_flag cmd
     then exists replayed new_q q',
         replay s (Int.to_int (last_seen_of cmd)) (cache st T) = Ok replayed /\
         rebuild (Int.to_int (last_seen_of cmd)) (cache st T) = Ok new_q /\
         trim_cache cache_size new_q = Ok q' /\
         caches st' = <[T := q']> (caches st) /\
         out = (s, success) :: replayed
     else caches st' = caches st /\ out = [(s, success)]).
Proof.
  unfold handle_subscribe. intros H.
  apply string_field_Ok in H as (T & HT & H).
  apply last_seen_field_Ok in H.
  apply cache_field_Ok in H.
  exists T. split; [done|].
  destruct (cache_flag cmd).
  - apply bind_Ok in H as ([st2 out2] & Hsc & H).
    injection H as <- <-.
    unfold send_cached in Hsc.
    apply bind_Ok in Hsc as (replayed & Hreplay & Hsc).
    apply bind_Ok in Hsc as (new_q & Hrebuild & Hsc).
    apply bind_Ok in Hsc as (q' & Htrim & Hsc).
    injection Hsc as <- <-. simpl.
    repeat (split; [done|]). exists replayed, new_q, q'. done.
  - injection H as <- <-. simpl. done.
Qed.

Lemma handle_unsubscribe_inv (st st' : state G) (s : session)
  (cmd : Json.object) (out : list frame) :
  handle_unsubscribe st s cmd = Ok (st', out) ->
  exists T : string,
    Json.find cmd "topic" = Some (Json.Str T) /\
    topics st' = <[T := subscribers st T ∖ {[s]}]> (topics st) /\
    topics_rev st' = <[s := subscriptions st s ∖ {[T]}]> (topics_rev st) /\
    caches st' = caches st /\
    indexs st' = indexs st /\
    rng st' = rng st /\
    out = [(s, success)].
Proof.
  unfold handle_unsubscribe. intros H.
  apply string_field_Ok in H as (T & HT & H).
  injection H as <- <-. exists T. done.
Qed.

(** [handle_command] on what [verify_command] accepts. *)
Lemma handle_command_cases (st : state G) (s : session) (cmd : Json.object) :
  verify_command cmd = true ->
  (is_command "subscribe" cmd = true /\
   handle_command dist cache_size st s cmd =
   handle_subscribe cache_size st s cmd) \/
  (is_command "unsubscribe" cmd = true /\
   handle_command dist cache_size st s cmd = handle_unsubscribe st s cmd) \/
  (is_command "send" cmd = true /\
   handle_command dist cache_size st s cmd =
   handle_send dist cache_size st s cmd ≫= fun r => Ok (r.1.1, r.1.2)).
Proof.
  intros Hv. unfold handle_command, Json.at_.
  destruct (verify_command_cases _ Hv) as [[Hc _]|[[Hc _]|[Hc _]]];
    rewrite (is_command_find _ _ Hc); simpl.
  - left. done.
  - right; left. done.
  - right; right. split; [done|].
    destruct (handle_send dist cache_size st s cmd) as [[[st' out] cmd']|];
      reflexivity.
Qed.

(** [cleanup] removes the session from the subscriber set of every topic
    it was subscribed to, and drops its reverse entry. *)
Lemma cleanup_subscribers (st : state G) (s : session) (T : string) :
  subscribers (cleanup st s) T =
  if decide (T ∈ subscriptions st s)
  then subscribers st T ∖ {[s]} else subscribers st T.
Proof.
  unfold cleanup, subscriptions.
  destruct (topics_rev st !! s) as [ts|] eqn:Hts; simpl.
  - unfold subscribers at 1. simpl.
    assert (Hfold : forall (X : gset string) (T : string),
      default ∅
        (set_fold (fun t tp => <[t := default ∅ (tp !! t) ∖ {[s]}]> tp)
                  (topics st) X !! T) =
      if decide (T ∈ X) then subscribers st T ∖ {[s]} else subscribers st T).
    { intros X.
      pose (P := fun (r : gmap string (gset session)) (X : gset string) =>
           forall T, default ∅ (r !! T) =
                     if decide (T ∈ X) then subscribers st T ∖ {[s]}
                     else subscribers st T).
      apply (set_fold_ind_L P); unfold P.
      - intros T'. rewrite decide_False by set_solver. done.
      - intros x X' r Hx IH T'. rewrite default_insert.
        destruct (decide (x = T')) as [->|Hne].
        + rewrite decide_True by set_solver.
          rewrite IH, decide_False by done. done.
        + rewrite IH. destruct (decide (T' ∈ X')).
          * rewrite decide_True by set_solver. done.
          * rewrite decide_False by set_solver. done. }
    apply Hfold.
  - rewrite decide_False by set_solver. done.
Qed.

Lemma cleanup_subscriptions (st : state G) (s S : session) :
  subscriptions (cleanup st s) S =
  if decide (S = s) then ∅ else subscriptions st S.
Proof.
  unfold cleanup, subscriptions.
  destruct (topics_rev st !! s) as [ts|] eqn:Hts; simpl.
  - destruct (decide (S = s)) as [->|Hne].
    + by rewrite lookup_delete_eq.
    + by rewrite lookup_delete_ne.
  - destruct (decide (S = s)) as [->|Hne]; [by rewrite Hts | done].
Qed.

Lemma cleanup_caches (st : state G) (s : session) :
  caches (cleanup st s) = caches st /\ indexs (cleanup st s) = indexs st.
Proof. unfold cleanup. by destruct (topics_rev st !! s). Qed.

End Inversions.

(** ** Invariants of the reachable states *)

Section Invariants.

Context {G : Type}.
Variable dist : G -> nat -> nat -> nat * G.
Variable cache_size : Z.

Lemma initial_cache_ok (g : G) : cache_ok (initial g).
Proof.
  intros T. unfold cache, next_index, initial. simpl.
  rewrite !lookup_empty. simpl.
  repeat split; try constructor; unfold Int.INT_MAX; lia.
Qed.

Lemma initial_bidirectional (g : G) : bidirectional (initial g).
Proof.
  intros T S. unfold subscribers, subscriptions, initial. simpl.
  rewrite !lookup_empty. simpl. set_solver.
Qed.

Lemma increasing_snoc (q : list Json.object) (m : Json.object) (n : Z) :
  increasing q -> Forall (well_stamped n) q -> msg_index m = n ->
  increasing (q ++ [m]).
Proof.
  intros Hq Hw Hm. apply StronglySorted_app_2; [|done|].
  - intros x1 x2 Hx1 Hx2. apply list_elem_of_singleton in Hx2 as ->.
    rewrite Forall_forall in Hw. apply Hw in Hx1.
    apply well_stamped_index in Hx1 as [_ Hr]. lia.
  - repeat constructor.
Qed.

Lemma cache_ok_send (st st' : state G) (s : session) (cmd cmd' : Json.object)
  (out : list frame) :
  cache_ok st ->
  verify_command cmd = true -> is_command "send" cmd = true ->
  handle_send dist cache_size st s cmd = Ok (st', out, cmd') ->
  cache_ok st'.
Proof.
  intros Hok Hv Hs H.
  destruct (verify_send _ Hv Hs) as (T0 & d0 & HT0 & Hd0 & Hdv & _ & Hni).
  apply handle_send_inv in H
    as (T & d & recipients & do_cache & HT & Hd & Hidx & -> & _ & Hc & _ & _ & Hi & _).
  assert (T0 = T) as -> by congruence. assert (d0 = d) as -> by congruence.
  intros T'. unfold cache, next_index. rewrite Hi, default_insert.
  destruct (Hok T) as (HwT & HsT & HrT & HlT).
  destruct (Hok T') as (Hw' & Hs' & Hr' & Hl').
  fold (next_index st T'). fold (next_index st T).
  set (m := Json.set cmd "index" (Json.Int64 (next_index st T))) in *.
  assert (Hm : well_stamped (next_index st T + 1) m).
  { exists (next_index st T), d. unfold m.
    rewrite find_set_eq, find_set_ne by done.
    repeat split; try done; lia. }
  assert (Hmi : msg_index m = next_index st T).
  { unfold msg_index, m. by rewrite find_set_eq. }
  destruct do_cache.
  - destruct Hc as (q' & Htrim & ->). rewrite default_insert.
    destruct (decide (T = T')) as [<-|Hne]; [|done].
    apply trim_cache_suffix in Htrim as [front Hfront].
    assert (Hall : Forall (well_stamped (next_index st T + 1)) (cache st T ++ [m])).
    { apply Forall_app. split; [|by constructor].
      eapply Forall_impl; [exact HwT|].
      intros x. apply well_stamped_mono. lia. }
    assert (Hinc : increasing (cache st T ++ [m])) by by eapply increasing_snoc.
    assert (Hlen : Z.of_nat (List.length (cache st T ++ [m])) <= next_index st T + 1).
    { rewrite length_app. simpl. lia. }
    rewrite Hfront in Hall, Hinc, Hlen.
    apply Forall_app in Hall as [_ Hall].
    apply StronglySorted_app_1_r in Hinc.
    rewrite length_app in Hlen.
    repeat split; try done; lia.
  - rewrite Hc. fold (cache st T').
    destruct (decide (T = T')) as [<-|Hne]; [|done].
    repeat split; try done; try lia.
    eapply Forall_impl; [exact HwT|].
    intros x. apply well_stamped_mono. lia.
Qed.

Lemma cache_ok_subscribe (st st' : state G) (s : session) (cmd : Json.object)
  (out : list frame) :
  cache_ok st ->
  handle_subscribe cache_size st s cmd = Ok (st', out) ->
  cache_ok st'.
Proof.
  intros Hok H.
  apply handle_subscribe_inv in H as (T & _ & _ & _ & Hi & _ & Hc).
  intros T'. unfold cache, next_index. rewrite Hi.
  fold (next_index st T').
  destruct (Hok T) as (HwT & HsT & HrT & HlT).
  destruct (Hok T') as (Hw' & Hs' & Hr' & Hl').
  destruct (cache_flag cmd).
  - destruct Hc as (replayed & new_q & q' & _ & Hrebuild & Htrim & -> & _).
    rewrite default_insert.
    destruct (decide (T = T')) as [<-|Hne]; [|done].
    rewrite (rebuild_stamped (next_index st T)) in Hrebuild by (done || lia).
    injection Hrebuild as <-.
    apply trim_cache_suffix in Htrim as [front Hfront].
    pose proof (Forall_bfilter _ (kept (Int.to_int (last_seen_of cmd))) _ HwT) as Hall.
    pose proof (StronglySorted_bfilter _ (kept (Int.to_int (last_seen_of cmd))) _ HsT)
      as Hinc.
    pose proof (List.filter_length_le (kept (Int.to_int (last_seen_of cmd)))
                  (cache st T)) as Hlen.
    rewrite Hfront in Hall, Hinc, Hlen.
    apply Forall_app in Hall as [_ Hall].
    apply StronglySorted_app_1_r in Hinc.
    rewrite length_app in Hlen.
    repeat split; try done; lia.
  - destruct Hc as [-> _]. done.
Qed.

Lemma cache_ok_unsubscribe (st st' : state G) (s : session) (cmd : Json.object)
  (out : list frame) :
  cache_ok st -> handle_unsubscribe st s cmd = Ok (st', out) -> cache_ok st'.
Proof.
  intros Hok H.
  apply handle_unsubscribe_inv in H as (T & _ & _ & _ & Hc & Hi & _).
  intros T'. unfold cache, next_index. rewrite Hc, Hi. apply Hok.
Qed.

Lemma cache_ok_cleanup (st : state G) (s : session) :
  cache_ok st -> cache_ok (cleanup st s).
Proof.
  intros Hok T'. unfold cache, next_index.
  destruct (cleanup_caches st s) as [-> ->]. apply Hok.
Qed.

Lemma cache_ok_step (st st' : state G) (ev : event) (out : list frame) :
  cache_ok st -> verified ev = true ->
  step dist cache_size st ev = Ok (st', out) ->
  cache_ok st'.
Proof.
  intros Hok Hv H. destruct ev as [s cmd|s]; simpl in *.
  - destruct (handle_command_cases dist cache_size st s cmd Hv)
      as [[Hc Heq]|[[Hc Heq]|[Hc Heq]]]; rewrite Heq in H.
    + by eapply cache_ok_subscribe.
    + by eapply cache_ok_unsubscribe.
    + apply bind_Ok in H as ([[st1 out1] cmd'] & Hsend & H).
      injection H as <- <-. by eapply cache_ok_send.
  - injection H as <- <-. by apply cache_ok_cleanup.
Qed.

Lemma bidirectional_subscribe (st st' : state G) (s : session)
  (cmd : Json.object) (out : list frame) :
  bidirectional st ->
  handle_subscribe cache_size st s cmd = Ok (st', out) ->
  bidirectional st'.
Proof.
  intros Hbi H.
  apply handle_subscribe_inv in H as (T & _ & Ht & Hr & _).
  intros T' S. unfold subscribers, subscriptions.
  rewrite Ht, Hr, !default_insert.
  fold (subscribers st T'). fold (subscriptions st S).
  specialize (Hbi T' S).
  destruct (decide (T = T')) as [<-|HT], (decide (s = S)) as [<-|HS];
    set_solver.
Qed.

Lemma bidirectional_unsubscribe (st st' : state G) (s : session)
  (cmd : Json.object) (out : list frame) :
  bidirectional st ->
  handle_unsubscribe st s cmd = Ok (st', out) ->
  bidirectional st'.
Proof.
  intros Hbi H.
  apply handle_unsubscribe_inv in H as (T & _ & Ht & Hr & _).
  intros T' S. unfold subscribers, subscriptions.
  rewrite Ht, Hr, !default_insert.
  fold (subscribers st T'). fold (subscriptions st S).
  specialize (Hbi T' S).
  destruct (decide (T = T')) as [<-|HT], (decide (s = S)) as [<-|HS];
    set_solver.
Qed.

Lemma subscribers_send (st st' : state G) (s : session) (cmd cmd' : Json.object)
  (out : list frame) (T : string) :
  handle_send dist cache_size st s cmd = Ok (st', out, cmd') ->
  subscribers st' T = subscribers st T /\ topics_rev st' = topics_rev st.
Proof.
  intros H.
  apply handle_send_inv in H
    as (T0 & d & recipients & do_cache & _ & _ & _ & _ & _ & _ & Ht & Hr & _).
  split; [|done]. unfold subscribers. rewrite Ht, default_insert.
  by destruct (decide (T0 = T)) as [->|].
Qed.

Lemma bidirectional_send (st st' : state G) (s : session)
  (cmd cmd' : Json.object) (out : list frame) :
  bidirectional st ->
  handle_send dist cache_size st s cmd = Ok (st', out, cmd') ->
  bidirectional st'.
Proof.
  intros Hbi H T S.
  destruct (subscribers_send _ _ _ _ _ _ T H) as [-> Hr].
  unfold subscriptions. rewrite Hr. apply Hbi.
Qed.

Lemma bidirectional_cleanup (st : state G) (s : session) :
  bidirectional st -> bidirectional (cleanup st s).
Proof.
  intros Hbi T S. rewrite cleanup_subscribers, cleanup_subscriptions.
  pose proof (Hbi T S). pose proof (Hbi T s).
  destruct (decide (T ∈ subscriptions st s)), (decide (S = s)); set_solver.
Qed.

(** Once [cleanup] has run for a session, no topic lists it. *)
Lemma cleanup_purges (st : state G) (s : session) (T : string) :
  bidirectional st -> s ∉ subscribers (cleanup st s) T.
Proof.
  intros Hbi. rewrite cleanup_subscribers. pose proof (Hbi T s).
  destruct (decide (T ∈ subscriptions st s)); set_solver.
Qed.

Lemma bidirectional_step (st st' : state G) (ev : event) (out : list frame) :
  bidirectional st -> verified ev = true ->
  step dist cache_size st ev = Ok (st', out) ->
  bidirectional st'.
Proof.
  intros Hbi Hv H. destruct ev as [s cmd|s]; simpl in *.
  - destruct (handle_command_cases dist cache_size st s cmd Hv)
      as [[Hc Heq]|[[Hc Heq]|[Hc Heq]]]; rewrite Heq in H.
    + by eapply bidirectional_subscribe.
    + by eapply bidirectional_unsubscribe.
    + apply bind_Ok in H as ([[st1 out1] cmd'] & Hsend & H).
      injection H as <- <-. by eapply bidirectional_send.
  - injection H as <- <-. by apply bidirectional_cleanup.
Qed.

Lemma run_invariant (P : state G -> Prop) :
  (forall st st' ev out, P st -> verified ev = true ->
     step dist cache_size st ev = Ok (st', out) -> P st') ->
  forall evs st st' out,
    P st -> forallb verified evs = true ->
    run dist cache_size st evs = Ok (st', out) -> P st'.
Proof.
  intros Hstep. induction evs as [|ev evs IH]; intros st st' out HP Hv H.
  - simpl in H. by injection H as <- <-.
  - simpl in Hv, H. apply andb_true_iff in Hv as [Hv1 Hv2].
    apply bind_Ok in H as ([st1 out1] & H1 & H).
    apply bind_Ok in H as ([st2 out2] & H2 & H).
    injection H as <- <-.
    eapply IH; [|exact Hv2|exact H2]. by eapply Hstep.
Qed.

Lemma reachable_cache_ok (st : state G) :
  reachable dist cache_size st -> cache_ok st.
Proof.
  intros (g & evs & out & Hv & H).
  eapply (run_invariant cache_ok); [|apply (initial_cache_ok g)|exact Hv|exact H].
  intros. by eapply cache_ok_step.
Qed.

Lemma reachable_bidirectional (st : state G) :
  reachable dist cache_size st -> bidirectional st.
Proof.
  intros (g & evs & out & Hv & H).
  eapply (run_invariant bidirectional);
    [|apply (initial_bidirectional g)|exact Hv|exact H].
  intros. by eapply bidirectional_step.
Qed.


Lemma run_app (st : state G) (evs1 evs2 : list event) :
  run dist cache_size st (evs1 ++ evs2) =
  run dist cache_size st evs1 ≫= fun r1 =>
  run dist cache_size r1.1 evs2 ≫= fun r2 => Ok (r2.1, r1.2 ++ r2.2).
Proof.
  revert st. induction evs1 as [|ev evs1 IH]; intros st; simpl.
  - by destruct (run dist cache_size st evs2) as [[st2 out2]|].
  - destruct (step dist cache_size st ev) as [[st1 out1]|]; simpl; [|done].
    rewrite IH.
    destruct (run dist cache_size st1 evs1) as [[st2 out2]|]; simpl; [|done].
    destruct (run dist cache_size st2 evs2) as [[st3 out3]|]; simpl; [|done].
    by rewrite app_assoc.
Qed.

Lemma reachable_step (st st' : state G) (ev : event) (out : list frame) :
  reachable dist cache_size st -> verified ev = true ->
  step dist cache_size st ev = Ok (st', out) ->
  reachable dist cache_size st'.
Proof.
  intros (g & evs & out0 & Hv & H) Hev Hstep.
  exists g, (evs ++ [ev]), (out0 ++ (out ++ [])). split.
  - rewrite forallb_app. simpl. by rewrite Hv, Hev.
  - rewrite run_app, H. simpl. by rewrite Hstep.
Qed.

End Invariants.

(** ** The end-to-end scenarios of the specification, run on the model *)

(** Basic fan-out: the subscriber is sent the stamped message, the
    publisher the success reply. *)
Example scenario_fan_out :
  Sample.written [Command 1%nat (Sample.subscribe "t");
                  Command 2%nat (Sample.send "t" "hi" "all")] =
  Some [(1%nat, success);
        (1%nat, Sample.stamped (Sample.send "t" "hi" "all") 0);
        (2%nat, success)].
Proof. vm_compute. reflexivity. Qed.

(** Replay with [last_seen]: three cached messages, a late subscriber with
    [last_seen] = 0 is sent the success reply, then messages 1 and 2. *)
Example scenario_replay :
  Sample.written [Command 1%nat (Sample.send "t" "a" "all");
                  Command 1%nat (Sample.send "t" "b" "all");
                  Command 1%nat (Sample.send "t" "c" "all");
                  Command 2%nat (Sample.subscribe_from "t" 0)] =
  Some [(1%nat, success); (1%nat, success); (1%nat, success);
        (2%nat, success);
        (2%nat, Sample.stamped (Sample.send "t" "b" "all") 1);
        (2%nat, Sample.stamped (Sample.send "t" "c" "all") 2)].
Proof. vm_compute. reflexivity. Qed.

(** A subscribe with [cache] false is sent the success reply only. *)
Example scenario_no_cache_subscribe :
  Sample.written [Command 1%nat (Sample.send "t" "a" "all");
                  Command 2%nat (Sample.subscribe_nocache "t")] =
  Some [(1%nat, success); (2%nat, success)].
Proof. vm_compute. reflexivity. Qed.

(** Delivery to one of three subscribers; a later subscriber is replayed
    nothing. *)
Example scenario_random_one :
  Sample.written [Command 1%nat (Sample.subscribe "t");
                  Command 2%nat (Sample.subscribe "t");
                  Command 3%nat (Sample.subscribe "t");
                  Command 4%nat (Sample.send "t" "x" "one");
                  Command 5%nat (Sample.subscribe "t")] =
  Some [(1%nat, success); (2%nat, success); (3%nat, success);
        (1%nat, Sample.stamped (Sample.send "t" "x" "one") 0);
        (4%nat, success); (5%nat, success)].
Proof. vm_compute. reflexivity. Qed.

(** After a session's cleanup, a send to its topic is not sent to it. *)
Example scenario_quit :
  Sample.written [Command 1%nat (Sample.subscribe "t");
                  Disconnect 1%nat;
                  Command 2%nat (Sample.send "t" "x" "all")] =
  Some [(1%nat, success); (2%nat, success)].
Proof. vm_compute. reflexivity. Qed.

(** ** C7: the registry *)

(** C7: in every reachable state the forward and reverse subscription maps
    agree (S is in subscribers(T) iff T is in subscriptions(S)); subscribe,
    unsubscribe and the purge of [cleanup] keep them in agreement; and once
    a session's [cleanup] has run, no topic's subscriber set holds it. *)
Theorem registry_bidirectional {G : Type} (dist : G -> nat -> nat -> nat * G)
  (cache_size : Z) (st : state G) :
  reachable dist cache_size st ->
  bidirectional st /\
  (forall s cmd st' out,
      handle_subscribe cache_size st s cmd = Ok (st', out) -> bidirectional st') /\
  (forall s cmd st' out,
      handle_unsubscribe st s cmd = Ok (st', out) -> bidirectional st') /\
  (forall s, bidirectional (cleanup st s)) /\
  (forall s T, s ∉ subscribers (cleanup st s) T).
Proof.
  intros Hr. pose proof (reachable_bidirectional _ _ _ Hr) as Hbi.
  split; [done|]. split; [|split; [|split]].
  - intros s cmd st' out. by apply bidirectional_subscribe.
  - intros s cmd st' out. by apply bidirectional_unsubscribe.
  - intros s. by apply bidirectional_cleanup.
  - intros s T. by apply cleanup_purges.
Qed.

Lemma sample_reachable (evs : list event) :
  forallb verified evs = true ->
  (exists r, run Sample.dist 100 (initial 0%nat) evs = Ok r) ->
  reachable Sample.dist 100 (Sample.after evs).
Proof.
  intros Hv [[st out] H]. exists 0%nat, evs, out. split; [done|].
  unfold Sample.after. by rewrite H.
Qed.

Lemma registry_bidirectional_witness :
  bidirectional
    (Sample.after [Command 1%nat (Sample.subscribe "a");
                   Command 2%nat (Sample.subscribe "a");
                   Command 1%nat (Sample.subscribe "b");
                   Command 2%nat (Sample.unsubscribe "a")]) /\
  1%nat ∉ subscribers
    (cleanup (Sample.after [Command 1%nat (Sample.subscribe "a");
                            Command 2%nat (Sample.subscribe "a");
                            Command 1%nat (Sample.subscribe "b");
                            Command 2%nat (Sample.unsubscribe "a")]) 1%nat)
    "a".
Proof.
  assert (Hr : reachable Sample.dist 100
    (Sample.after [Command 1%nat (Sample.subscribe "a");
                   Command 2%nat (Sample.subscribe "a");
                   Command 1%nat (Sample.subscribe "b");
                   Command 2%nat (Sample.unsubscribe "a")])).
  { apply sample_reachable; [reflexivity|].
    eexists. vm_compute. reflexivity. }
  destruct (registry_bidirectional _ _ _ Hr) as (H1 & _ & _ & _ & H5).
  split; [exact H1 | apply H5].
Defined.

(** ** C5: catch-up and prune *)

Lemma send_cached_stamped {G : Type} (cache_size : Z) (st : state G)
  (s : session) (T : string) (last_seen : Z) :
  cache_ok st -> 0 <= cache_size ->
  send_cached cache_size st s T last_seen =
  Ok ({| topics := topics st; topics_rev := topics_rev st;
         caches :=
           <[T := drop (List.length (List.filter (kept last_seen) (cache st T))
                        - Z.to_nat cache_size)
                       (List.filter (kept last_seen) (cache st T))]> (caches st);
         indexs := indexs st; rng := rng st |},
      map (pair s) (List.filter (unseen last_seen) (cache st T))).
Proof.
  intros Hok Hc. destruct (Hok T) as (Hw & _ & Hr & Hl).
  unfold send_cached.
  rewrite (replay_stamped (next_index st T)) by done. simpl.
  rewrite (rebuild_stamped (next_index st T)) by (done || lia). simpl.
  rewrite trim_cache_keeps_last; [done | done |].
  pose proof (List.filter_length_le (kept last_seen) (cache st T)). lia.
Qed.

(** C5: catch-up and prune for topic T with high-water mark [last_seen]
    rebuilds T's cache from the messages m with m.index <= last_seen or
    m.delivery == "all", in their order in the old cache, and then drops
    entries from the front until at most [cache_size] are left. *)
Theorem catch_up_and_prune {G : Type} (dist : G -> nat -> nat -> nat * G)
  (cache_size : Z) (st : state G) (s : session) (T : string) (last_seen : Z) :
  reachable dist cache_size st -> 0 <= cache_size ->
  exists st' out rebuilt,
    send_cached cache_size st s T last_seen = Ok (st', out) /\
    rebuild last_seen (cache st T) = Ok rebuilt /\
    rebuilt = List.filter (kept last_seen) (cache st T) /\
    (forall m, m ∈ rebuilt <->
               m ∈ cache st T /\
               (msg_index m <= last_seen \/ msg_delivery m = "all"%string)) /\
    sublist rebuilt (cache st T) /\
    trim_cache cache_size rebuilt = Ok (cache st' T) /\
    cache st' T = drop (List.length rebuilt - Z.to_nat cache_size) rebuilt /\
    Z.of_nat (List.length (cache st' T)) <= cache_size /\
    (forall T', T' <> T -> cache st' T' = cache st T').
Proof.
  intros Hr Hc. pose proof (reachable_cache_ok _ _ _ Hr) as Hok.
  destruct (Hok T) as (Hw & _ & Hn & Hl).
  set (rebuilt := List.filter (kept last_seen) (cache st T)).
  assert (Hlen : (List.length rebuilt <= List.length (cache st T))%nat)
    by apply List.filter_length_le.
  assert (Hcache : forall (q : list Json.object) (T' : string),
    cache {| topics := topics st; topics_rev := topics_rev st;
             caches := <[T := q]> (caches st);
             indexs := indexs st; rng := rng st |} T' =
    if decide (T = T') then q else cache st T').
  { intros q T'. unfold cache. simpl. apply default_insert. }
  eexists _, _, rebuilt.
  split; [by apply send_cached_stamped|].
  split; [apply (rebuild_stamped (next_index st T)); (done || lia)|].
  split; [done|]. rewrite !Hcache, decide_True by done.
  split; [|split; [|split; [|split; [|split]]]].
  - intros m. unfold rebuilt. rewrite !list_elem_of_In, List.filter_In.
    unfold kept. rewrite orb_true_iff, Z.leb_le, String.eqb_eq. done.
  - unfold rebuilt. clear. induction (cache st T) as [|m q IH]; simpl.
    + constructor.
    + destruct (kept last_seen m); by constructor.
  - apply trim_cache_keeps_last; [done | unfold rebuilt in *; lia].
  - done.
  - rewrite length_drop. unfold rebuilt in *. lia.
  - intros T' Hne. rewrite Hcache, decide_False by done. done.
Qed.

Lemma catch_up_and_prune_witness :
  exists st' out rebuilt,
    send_cached 100
      (Sample.after [Command 1%nat (Sample.send "t" "a" "all");
                     Command 1%nat (Sample.send "t" "b" "one");
                     Command 1%nat (Sample.send "t" "c" "all")])
      2%nat "t" 0 = Ok (st', out) /\
    rebuilt = [Sample.stamped (Sample.send "t" "a" "all") 0;
               Sample.stamped (Sample.send "t" "c" "all") 2] /\
    cache st' "t" = rebuilt.
Proof.
  assert (Hr : reachable Sample.dist 100
    (Sample.after [Command 1%nat (Sample.send "t" "a" "all");
                   Command 1%nat (Sample.send "t" "b" "one");
                   Command 1%nat (Sample.send "t" "c" "all")])).
  { apply sample_reachable; [reflexivity|].
    eexists. vm_compute. reflexivity. }
  destruct (catch_up_and_prune _ _ _ 2%nat "t" 0 Hr ltac:(lia))
    as (st' & out & rebuilt & H1 & _ & H3 & _ & _ & _ & H7 & _).
  exists st', out, rebuilt. split; [exact H1|]. split.
  - rewrite H3. vm_compute. reflexivity.
  - rewrite H7, H3. vm_compute. reflexivity.
Defined.

(** ** C4: replay on subscribe *)

Lemma increasing_NoDup (q : list Json.object) : increasing q -> NoDup q.
Proof.
  induction 1 as [|m q Hq IH Hm]; constructor; [|done].
  intros Hin. rewrite Forall_forall in Hm. apply Hm in Hin. lia.
Qed.

Lemma handle_subscribe_stamped {G : Type} (cache_size : Z) (st : state G)
  (s : session) (cmd : Json.object) :
  cache_ok st -> 0 <= cache_size ->
  verify_command cmd = true -> is_command "subscribe" cmd = true ->
  exists st',
    handle_subscribe cache_size st s cmd =
    Ok (st',
        (s, success) ::
        (if cache_flag cmd
         then map (pair s)
                (List.filter (unseen (Int.to_int (last_seen_of cmd)))
                             (cache st (msg_topic cmd)))
         else [])).
Proof.
  intros Hok Hc Hv Hs.
  destruct (verify_subscribe _ Hv Hs) as (T & HT & Hls & Hcf).
  unfold handle_subscribe, Json.at_, msg_topic. rewrite HT. simpl.
  assert (Hk : match Json.find cmd "last_seen" with
               | Some v => Json.as_int64 v ≫= fun i => Ok (Int.to_int i)
               | None => Ok (-1)
               end = Ok (Int.to_int (last_seen_of cmd))).
  { unfold Json.contains, last_seen_of in *.
    destruct (Json.find cmd "last_seen") as [v|]; [by injection Hls as ->|done]. }
  rewrite Hk. simpl.
  assert (Hf : (if Json.contains cmd "cache"
                then match Json.find cmd "cache" with
                     | Some v => Ok v
                     | None => Fault json_error
                     end ≫= fun c => Json.as_bool c
                else Ok true) = Ok (cache_flag cmd)).
  { unfold Json.contains, cache_flag in *.
    destruct (Json.find cmd "cache") as [v|]; [by injection Hcf as ->|done]. }
  rewrite Hf. simpl.
  destruct (cache_flag cmd).
  - rewrite send_cached_stamped by done. simpl. eauto.
  - eauto.
Qed.

(** C4, counterexample: with messages 0 and 1 cached, a subscribe with
    [last_seen] = 2^32 is sent message 1, whose index is not above 2^32. *)
Lemma replay_of_wide_last_seen :
  verify_command (Sample.subscribe_from "t" (2 ^ 32)) = true /\
  Sample.written [Command 1%nat (Sample.send "t" "a" "all");
                  Command 1%nat (Sample.send "t" "b" "all");
                  Command 2%nat (Sample.subscribe_from "t" (2 ^ 32))] =
  Some [(1%nat, success); (1%nat, success); (2%nat, success);
        (2%nat, Sample.stamped (Sample.send "t" "b" "all") 1)] /\
  msg_index (Sample.stamped (Sample.send "t" "b" "all") 1) <= 2 ^ 32.
Proof.
  split; [|split].
  - vm_compute. reflexivity.
  - vm_compute. reflexivity.
  - vm_compute. intros H. discriminate H.
Qed.

(** C4, as the code has it: for a subscribe command with [cache] absent or
    true and [last_seen] = k (-1 when absent), the frames written are the
    success reply followed by the cached messages whose index is above k
    truncated to a 32-bit int (k itself when it fits an int), in the
    cache's order; their indices are strictly increasing and no message is
    sent twice. *)
Theorem replay_after_success {G : Type} (dist : G -> nat -> nat -> nat * G)
  (cache_size : Z) (st : state G) (s : session) (cmd : Json.object) :
  reachable dist cache_size st -> 0 <= cache_size ->
  verify_command cmd = true -> is_command "subscribe" cmd = true ->
  cache_flag cmd = true ->
  exists st' replayed,
    handle_subscribe cache_size st s cmd =
      Ok (st', (s, success) :: map (pair s) replayed) /\
    replayed = List.filter (unseen (Int.to_int (last_seen_of cmd)))
                           (cache st (msg_topic cmd)) /\
    Forall (fun m => Int.to_int (last_seen_of cmd) < msg_index m) replayed /\
    (Int.in_range (last_seen_of cmd) = true ->
     Forall (fun m => last_seen_of cmd < msg_index m) replayed) /\
    increasing replayed /\
    NoDup replayed.
Proof.
  intros Hr Hc Hv Hs Hflag.
  pose proof (reachable_cache_ok _ _ _ Hr) as Hok.
  destruct (handle_subscribe_stamped cache_size st s cmd Hok Hc Hv Hs)
    as [st' H].
  rewrite Hflag in H. eexists st', _. split; [exact H|]. split; [done|].
  destruct (Hok (msg_topic cmd)) as (_ & Hinc & _).
  assert (Hall : Forall (fun m => Int.to_int (last_seen_of cmd) < msg_index m)
                   (List.filter (unseen (Int.to_int (last_seen_of cmd)))
                                (cache st (msg_topic cmd)))).
  { apply Forall_forall. intros m Hm.
    apply list_elem_of_In, List.filter_In in Hm as [_ Hm].
    unfold unseen in Hm. lia. }
  split; [done|]. split.
  - intros Hin. rewrite (to_int_id _ Hin) in Hall |- *. exact Hall.
  - split; [by apply StronglySorted_bfilter|].
    by apply increasing_NoDup, StronglySorted_bfilter.
Qed.

Lemma replay_after_success_witness :
  exists st',
    handle_subscribe 100
      (Sample.after [Command 1%nat (Sample.send "t" "a" "all");
                     Command 1%nat (Sample.send "t" "b" "all");
                     Command 1%nat (Sample.send "t" "c" "all")])
      2%nat (Sample.subscribe_from "t" 0) =
    Ok (st', [(2%nat, success);
              (2%nat, Sample.stamped (Sample.send "t" "b" "all") 1);
              (2%nat, Sample.stamped (Sample.send "t" "c" "all") 2)]).
Proof.
  assert (Hr : reachable Sample.dist 100
    (Sample.after [Command 1%nat (Sample.send "t" "a" "all");
                   Command 1%nat (Sample.send "t" "b" "all");
                   Command 1%nat (Sample.send "t" "c" "all")])).
  { apply sample_reachable; [reflexivity|].
    eexists. vm_compute. reflexivity. }
  destruct (replay_after_success _ _ _ 2%nat (Sample.subscribe_from "t" 0) Hr
              ltac:(lia) eq_refl eq_refl eq_refl)
    as (st' & replayed & H1 & H2 & _).
  exists st'. rewrite H1, H2. vm_compute. reflexivity.
Defined.

(** ** C10: [last_seen] is narrowed to an [int] *)


(** ** C6: the per-topic index counter *)

Section Counting.

Context {G : Type}.
Variable dist : G -> nat -> nat -> nat * G.
Variable cache_size : Z.

Lemma is_command_other (a b : string) (cmd : Json.object) :
  is_command a cmd = true -> a <> b -> is_command b cmd = false.
Proof.
  intros Ha Hne. apply is_command_find in Ha. unfold is_command.
  rewrite Ha. by apply String.eqb_neq.
Qed.

Lemma handle_send_index (st st' : state G) (s : session)
  (cmd cmd' : Json.object) (out : list frame) :
  handle_send dist cache_size st s cmd = Ok (st', out, cmd') ->
  msg_topic cmd' = msg_topic cmd /\
  msg_index cmd' = next_index st (msg_topic cmd) /\
  next_index st' (msg_topic cmd) = next_index st (msg_topic cmd) + 1 /\
  (forall T, T <> msg_topic cmd -> next_index st' T = next_index st T).
Proof.
  intros H.
  apply handle_send_inv in H
    as (T & d & recipients & do_cache & HT & _ & _ & -> & _ & _ & _ & _ & Hi & _).
  unfold msg_topic, msg_index, next_index.
  rewrite find_set_eq, find_set_ne, HT, Hi by discriminate.
  rewrite lookup_insert_eq. simpl. repeat split; try done.
  intros T' Hne. by rewrite lookup_insert_ne.
Qed.

Lemma step_counts (st st' : state G) (ev : event) (out : list frame)
  (T : string) :
  verified ev = true ->
  step dist cache_size st ev = Ok (st', out) ->
  if sends_to T ev
  then next_index st' T = next_index st T + 1 /\
       map msg_index (to_topic T (stamp_of dist cache_size st ev)) =
         [next_index st T]
  else next_index st' T = next_index st T /\
       to_topic T (stamp_of dist cache_size st ev) = [].
Proof.
  intros Hv H. destruct ev as [s cmd|s]; simpl in *.
  - destruct (handle_command_cases dist cache_size st s cmd Hv)
      as [[Hc Heq]|[[Hc Heq]|[Hc Heq]]]; rewrite Heq in H.
    + rewrite (is_command_other _ "send" _ Hc) by discriminate. simpl.
      apply handle_subscribe_inv in H as (T0 & _ & _ & _ & Hi & _).
      unfold next_index. by rewrite Hi.
    + rewrite (is_command_other _ "send" _ Hc) by discriminate. simpl.
      apply handle_unsubscribe_inv in H as (T0 & _ & _ & _ & _ & Hi & _).
      unfold next_index. by rewrite Hi.
    + rewrite Hc. simpl.
      apply bind_Ok in H as ([[st1 out1] cmd'] & Hsend & H).
      injection H as <- <-. rewrite Hsend.
      destruct (handle_send_index _ _ _ _ _ _ Hsend) as (Ht & Hi & Hn & Ho).
      unfold to_topic. simpl. rewrite Ht.
      destruct (String.eqb_spec (msg_topic cmd) T) as [<-|Hne]; simpl.
      * by rewrite Hi.
      * split; [|done]. apply Ho. congruence.
  - injection H as <- <-. unfold next_index.
    by destruct (cleanup_caches st s) as [_ ->].
Qed.

Lemma run_counts (evs : list event) :
  forall (st st' : state G) (out : list frame) (T : string),
    forallb verified evs = true ->
    run dist cache_size st evs = Ok (st', out) ->
    next_index st' T = next_index st T + Z.of_nat (count_sends T evs) /\
    map msg_index (to_topic T (stamps dist cache_size st evs)) =
      map (fun i => next_index st T + Z.of_nat i) (seq 0 (count_sends T evs)).
Proof.
  induction evs as [|ev evs IH]; intros st st' out T Hv H.
  - simpl in *. injection H as <- <-. unfold count_sends. simpl.
    split; [lia | done].
  - simpl in Hv, H. apply andb_true_iff in Hv as [Hv1 Hv2].
    apply bind_Ok in H as ([st1 out1] & H1 & H).
    apply bind_Ok in H as ([st2 out2] & H2 & H).
    injection H as <- <-.
    destruct (IH _ _ _ T Hv2 H2) as [IHn IHs].
    pose proof (step_counts _ _ _ _ T Hv1 H1) as Hstep.
    simpl stamps. rewrite H1. unfold to_topic in *.
    rewrite List.filter_app, map_app, IHs, IHn.
    unfold count_sends. simpl List.filter.
    destruct (sends_to T ev); destruct Hstep as [Hn Hs].
    + rewrite Hn, Hs. simpl. split; [lia|].
      rewrite Z.add_0_r. f_equal. rewrite <- seq_shift, map_map.
      apply map_ext. intros i. lia.
    + rewrite Hn, Hs. done.
Qed.

End Counting.

(** C6: after any run from the initial state, the next index of every
    topic T is the number of send commands to T that were processed, and
    the indices stamped on those sends are 0, 1, 2, ... in processing
    order; a send advances the topic's next index by one whatever its
    delivery mode, its cache flag and the topic's subscribers. *)
Theorem next_index_counts_sends {G : Type} (dist : G -> nat -> nat -> nat * G)
  (cache_size : Z) (g : G) (evs : list event) (st : state G)
  (out : list frame) (T : string) :
  forallb verified evs = true ->
  run dist cache_size (initial g) evs = Ok (st, out) ->
  next_index st T = Z.of_nat (count_sends T evs) /\
  map msg_index (to_topic T (stamps dist cache_size (initial g) evs)) =
    map Z.of_nat (seq 0 (count_sends T evs)) /\
  (forall s cmd st' out' cmd',
      handle_send dist cache_size st s cmd = Ok (st', out', cmd') ->
      msg_index cmd' = next_index st (msg_topic cmd) /\
      next_index st' (msg_topic cmd) = next_index st (msg_topic cmd) + 1).
Proof.
  intros Hv H.
  destruct (run_counts dist cache_size evs _ _ _ T Hv H) as [Hn Hs].
  assert (H0 : next_index (initial g) T = 0).
  { unfold next_index, initial. simpl. by rewrite lookup_empty. }
  rewrite H0 in Hn, Hs. split; [lia|]. split.
  - rewrite Hs. apply map_ext. intros i. lia.
  - intros s cmd st' out' cmd' Hsend.
    destruct (handle_send_index _ _ _ _ _ _ _ _ Hsend) as (_ & Hi & Hn' & _).
    done.
Qed.

Lemma next_index_counts_sends_witness :
  next_index
    (Sample.after [Command 1%nat (Sample.send "t" "a" "all");
                   Command 1%nat (Sample.send_nocache "t" "b" "one");
                   Command 2%nat (Sample.subscribe "t");
                   Command 1%nat (Sample.send "t" "c" "one");
                   Command 3%nat (Sample.send "u" "d" "all")]) "t" = 3 /\
  map msg_index
    (to_topic "t"
       (stamps Sample.dist 100 (initial 0%nat)
          [Command 1%nat (Sample.send "t" "a" "all");
           Command 1%nat (Sample.send_nocache "t" "b" "one");
           Command 2%nat (Sample.subscribe "t");
           Command 1%nat (Sample.send "t" "c" "one");
           Command 3%nat (Sample.send "u" "d" "all")])) = [0; 1; 2].
Proof.
  assert (H : exists out,
    run Sample.dist 100 (initial 0%nat)
      [Command 1%nat (Sample.send "t" "a" "all");
       Command 1%nat (Sample.send_nocache "t" "b" "one");
       Command 2%nat (Sample.subscribe "t");
       Command 1%nat (Sample.send "t" "c" "one");
       Command 3%nat (Sample.send "u" "d" "all")] =
    Ok (Sample.after [Command 1%nat (Sample.send "t" "a" "all");
                      Command 1%nat (Sample.send_nocache "t" "b" "one");
                      Command 2%nat (Sample.subscribe "t");
                      Command 1%nat (Sample.send "t" "c" "one");
                      Command 3%nat (Sample.send "u" "d" "all")], out)).
  { eexists. vm_compute. reflexivity. }
  destruct H as [out H].
  edestruct (next_index_counts_sends Sample.dist 100 0%nat) as (H1 & H2 & _).
  2: exact H.
  1: reflexivity.
  split; [exact H1 | exact H2].
Defined.

(** ** [handle_send] returns *)

Lemma at_find (o : Json.object) (k : string) (v : Json.value) :
  Json.find o k = Some v -> Json.at_ o k = Ok v.
Proof. unfold Json.at_. by intros ->. Qed.

Lemma bind_Ok_l {A B : Type} (a : A) (k : A -> res B) : Ok a ≫= k = k a.
Proof. reflexivity. Qed.

Lemma cache_field_verified (cmd : Json.object) :
  Json.find cmd "cache" =
    (if Json.contains cmd "cache"
     then Some (Json.Bool (cache_flag cmd)) else None) ->
  (if Json.contains cmd "cache"
   then Json.at_ cmd "cache" ≫= fun c => Json.as_bool c
   else Ok true) = Ok (cache_flag cmd).
Proof.
  unfold Json.contains, Json.at_, cache_flag.
  destruct (Json.find cmd "cache") as [v|]; [|done].
  by intros [= ->].
Qed.

Lemma handle_send_returns {G : Type} (dist : G -> nat -> nat -> nat * G)
  (cache_size : Z) (st : state G) (s : session) (cmd : Json.object) :
  in_range_dist dist -> cache_ok st -> 0 <= cache_size ->
  verify_command cmd = true -> is_command "send" cmd = true ->
  next_index st (msg_topic cmd) < Int.INT_MAX ->
  exists st' out cmd',
    handle_send dist cache_size st s cmd = Ok (st', out, cmd').
Proof.
  intros Hdist Hok Hc Hv Hs Hidx.
  destruct (verify_send _ Hv Hs) as (T & d & HT & Hd & Hdv & Hcf & Hni).
  unfold msg_topic in Hidx. rewrite HT in Hidx.
  destruct (Hok T) as (_ & _ & Hn & Hl).
  assert (Htail : forall (do_cache : bool) (m : Json.object),
    exists caches',
      (if do_cache
       then trim_cache cache_size (cache st T ++ [m]) ≫= fun q' =>
            Ok (<[T := q']> (caches st))
       else Ok (caches st)) = Ok caches').
  { intros [] m; [|eauto].
    rewrite trim_cache_keeps_last; [simpl; eauto | done |].
    rewrite length_app. simpl. lia. }
  unfold handle_send.
  rewrite (at_find _ _ _ HT), bind_Ok_l. simpl Json.as_string. rewrite bind_Ok_l.
  rewrite (at_find _ _ _ Hd), bind_Ok_l. simpl Json.as_string. rewrite bind_Ok_l.
  rewrite (cache_field_verified _ Hcf), bind_Ok_l.
  destruct (Z.eqb_spec (next_index st T) Int.INT_MAX); [lia|].
  destruct (String.eqb d "all").
  - simpl. edestruct Htail as [caches' ->]. simpl. eauto.
  - destruct (Nat.eqb_spec (size (subscribers st T)) 0) as [Hsz|Hsz].
    + simpl. edestruct Htail as [caches' ->]. simpl. eauto.
    + pose proof (Hdist (rng st) 0%nat (size (subscribers st T) - 1)%nat
                    ltac:(lia)) as Hr.
      destruct (dist (rng st) 0%nat (size (subscribers st T) - 1)%nat)
        as [r g'].
      simpl in Hr.
      destruct (lookup_lt_is_Some_2 (ordered (subscribers st T)) r) as [x Hx].
      { rewrite ordered_length. lia. }
      rewrite Hx. simpl. eauto.
Qed.

(** ** C1 and C2: delivery to one subscriber *)

Lemma cache_after_insert {G : Type} (st st' : state G) (T : string)
  (q : list Json.object) :
  caches st' = <[T := q]> (caches st) -> cache st' T = q.
Proof. intros H. unfold cache. by rewrite H, lookup_insert_eq. Qed.

Lemma msg_delivery_find (cmd : Json.object) (d : string) :
  Json.find cmd "delivery" = Some (Json.Str d) -> msg_delivery cmd = d.
Proof. intros H. unfold msg_delivery. by rewrite H. Qed.

Lemma msg_topic_find (cmd : Json.object) (T : string) :
  Json.find cmd "topic" = Some (Json.Str T) -> msg_topic cmd = T.
Proof. intros H. unfold msg_topic. by rewrite H. Qed.

(** C1, counterexample: a send with delivery "one" to a topic without
    subscribers, its cache flag absent, is appended to the topic's cache:
    the state reached holds a cached message whose delivery is "one". *)
Lemma one_delivery_cached_without_subscribers :
  verify_command (Sample.send "t" "x" "one") = true /\
  reachable Sample.dist 100
    (Sample.after [Command 1%nat (Sample.send "t" "x" "one")]) /\
  cache (Sample.after [Command 1%nat (Sample.send "t" "x" "one")]) "t" =
    [Sample.stamped (Sample.send "t" "x" "one") 0] /\
  msg_delivery (Sample.stamped (Sample.send "t" "x" "one") 0) = "one"%string.
Proof.
  split; [reflexivity|]. split.
  - apply sample_reachable; [reflexivity|]. eexists. vm_compute. reflexivity.
  - split; vm_compute; reflexivity.
Qed.

(** C1, as the code has it: in every reachable state every cached message
    has delivery "all" or "one"; a send with delivery "one" leaves the
    caches unchanged when the topic has a subscriber, whatever its cache
    flag, and when its cache flag is false; sent to a topic without
    subscribers with the cache flag absent or true, it is appended to the
    topic's cache. *)
Theorem cached_deliveries {G : Type} (dist : G -> nat -> nat -> nat * G)
  (cache_size : Z) (st : state G) :
  reachable dist cache_size st ->
  (forall T m, m ∈ cache st T ->
     msg_delivery m = "all"%string \/ msg_delivery m = "one"%string) /\
  (forall s cmd st' out cmd',
     msg_delivery cmd = "one"%string ->
     handle_send dist cache_size st s cmd = Ok (st', out, cmd') ->
     (subscribers st (msg_topic cmd) <> ∅ -> caches st' = caches st) /\
     (cache_flag cmd = false -> caches st' = caches st) /\
     (subscribers st (msg_topic cmd) = ∅ -> cache_flag cmd = true ->
      trim_cache cache_size (cache st (msg_topic cmd) ++ [cmd']) =
        Ok (cache st' (msg_topic cmd)))).
Proof.
  intros Hr. pose proof (reachable_cache_ok _ _ _ Hr) as Hok. split.
  - intros T m Hm. destruct (Hok T) as (Hw & _).
    rewrite Forall_forall in Hw. apply Hw in Hm.
    by apply well_stamped_delivery in Hm as [_ Hd].
  - intros s cmd st' out cmd' Hone H.
    apply handle_send_inv in H
      as (T & d & recipients & do_cache & HT & Hd & _ & -> & Hsel & Hc & _).
    rewrite (msg_topic_find _ _ HT).
    rewrite (msg_delivery_find _ _ Hd) in Hone. subst d.
    destruct Hsel as [(Hall & _)|[(_ & Hemp & _ & ->)|(_ & Hne & x & _ & _ & ->)]].
    + discriminate Hall.
    + split; [done|]. destruct (cache_flag cmd); split; try done.
      intros _ _. destruct Hc as (q' & Htrim & Hc).
      by rewrite (cache_after_insert _ _ _ _ Hc).
    + split; [done|]. split; [done|]. intros Hemp. done.
Qed.

Lemma cached_deliveries_witness :
  msg_delivery (Sample.stamped (Sample.send "t" "a" "all") 0) = "all"%string \/
  msg_delivery (Sample.stamped (Sample.send "t" "a" "all") 0) = "one"%string.
Proof.
  assert (Hr : reachable Sample.dist 100
    (Sample.after [Command 1%nat (Sample.send "t" "a" "all");
                   Command 2%nat (Sample.subscribe "t");
                   Command 1%nat (Sample.send "t" "b" "one")])).
  { apply sample_reachable; [reflexivity|].
    eexists. vm_compute. reflexivity. }
  destruct (cached_deliveries _ _ _ Hr) as [H _].
  apply (H "t"%string). vm_compute. apply list_elem_of_here.
Defined.


(** ** C8: decoding a record *)

Lemma trail_shrinks (n : nat) (c : Z) (p : string) :
  (String.length (snd (Utf.trail n c p)) <= String.length p)%nat.
Proof.
  revert c p. induction n as [|n IH]; intros c p; simpl; [lia|].
  destruct p as [|t p]; simpl; [lia|].
  destruct (Utf.is_trail (Utf.byte t)); simpl; [|lia].
  specialize (IH (Z.lor (Z.shiftl c 6) (Z.land (Utf.byte t) 63)) p). lia.
Qed.

(** [decode] consumes at least one byte of a non-empty input. *)
Lemma decode_consumes (a : ascii) (p : string) :
  (String.length (snd (Utf.decode (String a p))) <= String.length p)%nat.
Proof.
  unfold Utf.decode.
  destruct (Utf.trail_length (Utf.byte a) <? 0); simpl; [lia|].
  destruct (Utf.trail_length (Utf.byte a) =? 0); simpl; [lia|].
  pose proof (trail_shrinks (Z.to_nat (Utf.trail_length (Utf.byte a)))
    (Z.land (Utf.byte a)
       (Z.shiftl 1 (6 - Utf.trail_length (Utf.byte a)) - 1)) p) as H.
  destruct (Utf.trail _ _ p) as [[v| |] rest]; simpl in *; try lia.
  destruct (negb (Utf.is_valid_codepoint v)); simpl; [lia|].
  destruct (negb (Utf.width v =? Utf.trail_length (Utf.byte a) + 1)); simpl; lia.
Qed.

(** The fuel [utf_to_utf] gives the loop is enough: more changes nothing. *)
Lemma convert_fuel (how : Utf.method_type) (n : nat) :
  forall (m : nat) (p : string),
    (String.length p <= n)%nat -> (String.length p <= m)%nat ->
    Utf.convert n how p = Utf.convert m how p.
Proof.
  induction n as [|n IH]; intros m p Hn Hm.
  - destruct p; [by destruct m | simpl in Hn; lia].
  - destruct p as [|a p]; [by destruct m|].
    destruct m as [|m]; [simpl in Hm; lia|].
    simpl in Hn, Hm. pose proof (decode_consumes a p) as Hd.
    change (Utf.convert (S n) how (String a p)) with
      (match Utf.decode (String a p) with
       | (Utf.point v, rest) => cons v <$> Utf.convert n how rest
       | (_, rest) =>
           match how with
           | Utf.stop => None
           | Utf.skip => Utf.convert n how rest
           end
       end).
    change (Utf.convert (S m) how (String a p)) with
      (match Utf.decode (String a p) with
       | (Utf.point v, rest) => cons v <$> Utf.convert m how rest
       | (_, rest) =>
           match how with
           | Utf.stop => None
           | Utf.skip => Utf.convert m how rest
           end
       end).
    destruct (Utf.decode (String a p)) as [[v| |] rest]; simpl in Hd;
      try rewrite (IH m rest) by lia; reflexivity.
Qed.

(** With the [skip] method the conversion never throws. *)
Lemma convert_skip (fuel : nat) :
  forall p : string, exists l, Utf.convert fuel Utf.skip p = Some l.
Proof.
  induction fuel as [|fuel IH]; intros p.
  - destruct p; simpl; eauto.
  - destruct p as [|a p]; [simpl; eauto|].
    change (Utf.convert (S fuel) Utf.skip (String a p)) with
      (match Utf.decode (String a p) with
       | (Utf.point v, rest) => cons v <$> Utf.convert fuel Utf.skip rest
       | (_, rest) => Utf.convert fuel Utf.skip rest
       end).
    destruct (Utf.decode (String a p)) as [[v| |] rest];
      destruct (IH rest) as [l ->]; simpl; eauto.
Qed.

Lemma valid_utf8_always (line : string) : valid_utf8 line = true.
Proof.
  unfold valid_utf8, Utf.utf_to_utf, Utf.default_method.
  by destruct (convert_skip (String.length line) line) as [l ->].
Qed.

Lemma do_read_skips_utf8_check {G : Type} (dist : G -> nat -> nat -> nat * G)
  (cache_size : Z) (parse : string -> option Json.value) (st : state G)
  (s : session) (l : string) :
  do_read dist cache_size parse st s (Some l) =
  if String.eqb (strip_cr l) "quit" then Ok (cleanup st s, [], closed)
  else if String.eqb (strip_cr l) "" then Ok (st, [], reading)
  else
    match parse (strip_cr l) with
    | None => Ok (st, [(s, failure "Could not parse json")], reading)
    | Some (Json.Object o) =>
        if verify_command o then
          handle_command dist cache_size st s o ≫= fun r =>
          Ok (r.1, r.2, reading)
        else Ok (st, [(s, failure "Malformed json message")], reading)
    | Some _ => Ok (st, [(s, failure "Malformed json message")], reading)
    end.
Proof.
  unfold do_read. rewrite valid_utf8_always. simpl negb. cbv iota.
  destruct (String.eqb (strip_cr l) "quit"); [done|].
  destruct (String.eqb (strip_cr l) ""); [done|].
  destruct (parse (strip_cr l)) as [[]|]; try done.
  destruct (verify_command o); [|done].
  by destruct (handle_command dist cache_size st s o) as [[st' out]|].
Qed.

(** C8, at the failing input: the record made of the single byte 0xFF is
    not well-formed UTF-8, yet [valid_utf8] accepts it, as it accepts every
    record ([utf_to_utf] is called with its default method, which skips
    what it cannot decode instead of throwing).  The reply to it, and to
    every record that is neither empty nor [quit], is decided by the JSON
    parser and the schema alone: "Could not decode input as UTF-8" is never
    the reason.  The other two failures are replied as the specification
    says, and the session keeps reading. *)
Theorem invalid_utf8_is_not_reported :
  Utf.well_formed Sample.byte_ff = false /\
  (forall line : string, valid_utf8 line = true) /\
  (forall (G : Type) (dist : G -> nat -> nat -> nat * G) (cache_size : Z)
          (parse : string -> option Json.value) (st : state G) (s : session),
      do_read dist cache_size parse st s (Some Sample.byte_ff) =
      match parse Sample.byte_ff with
      | None => Ok (st, [(s, failure "Could not parse json")], reading)
      | Some (Json.Object o) =>
          if verify_command o then
            handle_command dist cache_size st s o ≫= fun r =>
            Ok (r.1, r.2, reading)
          else Ok (st, [(s, failure "Malformed json message")], reading)
      | Some _ => Ok (st, [(s, failure "Malformed json message")], reading)
      end) /\
  (forall (G : Type) (dist : G -> nat -> nat -> nat * G) (cache_size : Z)
          (parse : string -> option Json.value) (st : state G) (s : session)
          (l : string),
      do_read dist cache_size parse st s (Some l) =
      if String.eqb (strip_cr l) "quit" then Ok (cleanup st s, [], closed)
      else if String.eqb (strip_cr l) "" then Ok (st, [], reading)
      else
        match parse (strip_cr l) with
        | None => Ok (st, [(s, failure "Could not parse json")], reading)
        | Some (Json.Object o) =>
            if verify_command o then
              handle_command dist cache_size st s o ≫= fun r =>
              Ok (r.1, r.2, reading)
            else Ok (st, [(s, failure "Malformed json message")], reading)
        | Some _ => Ok (st, [(s, failure "Malformed json message")], reading)
        end).
Proof.
  split; [vm_compute; reflexivity|]. split; [exact valid_utf8_always|].
  split.
  - intros G dist cache_size parse st s.
    rewrite do_read_skips_utf8_check. reflexivity.
  - intros G dist cache_size parse st s l.
    apply do_read_skips_utf8_check.
Qed.

(** ** The read loop and the runs of handlers *)

(** What the read handler does to the broker is a step of a run: nothing,
    a verified command, or a disconnect.  So the states the read loop
    reaches are reachable states. *)
Lemma do_read_reachable {G : Type} (dist : G -> nat -> nat -> nat * G)
  (cache_size : Z) (parse : string -> option Json.value) (st st' : state G)
  (s : session) (input : option string) (out : list frame) (status : status) :
  reachable dist cache_size st ->
  do_read dist cache_size parse st s input = Ok (st', out, status) ->
  reachable dist cache_size st'.
Proof.
  intros Hr H. destruct input as [l|].
  - rewrite do_read_skips_utf8_check in H.
    destruct (String.eqb (strip_cr l) "quit").
    { injection H as <- <- <-.
      by apply (reachable_step dist cache_size st _ (Disconnect s) []). }
    destruct (String.eqb (strip_cr l) ""); [by injection H as <- <- <-|].
    destruct (parse (strip_cr l)) as [[]|];
      try by injection H as <- <- <-.
    destruct (verify_command o) eqn:Hv; [|by injection H as <- <- <-].
    apply bind_Ok in H as ([st1 out1] & Hcmd & H).
    injection H as <- <- <-.
    by apply (reachable_step dist cache_size st _ (Command s o) out1).
  - simpl in H. injection H as <- <- <-.
    by apply (reachable_step dist cache_size st _ (Disconnect s) []).
Qed.

(** Every deque the broker hands to [trim_cache] has a size that fits an
    [int]: a topic's cache is never longer than its next index, and
    [handle_send] does not get to the append once the index is [INT_MAX]. *)
Lemma trimmed_deques_fit_int {G : Type} (dist : G -> nat -> nat -> nat * G)
  (cache_size : Z) (st : state G) (T : string) (m : Json.object)
  (last_seen : Z) :
  reachable dist cache_size st ->
  Z.of_nat (List.length (List.filter (kept last_seen) (cache st T)))
    <= Int.INT_MAX /\
  (next_index st T <> Int.INT_MAX ->
   Z.of_nat (List.length (cache st T ++ [m])) <= Int.INT_MAX).
Proof.
  intros Hr. destruct (reachable_cache_ok _ _ _ Hr T) as (_ & _ & Hn & Hl).
  pose proof (List.filter_length_le (kept last_seen) (cache st T)).
  split; [lia|]. intros Hne. rewrite length_app. simpl. lia.
Qed.

(** ** C9: the capacity of the replay cache *)

Lemma handle_send_negative_capacity {G : Type}
  (dist : G -> nat -> nat -> nat * G) (cache_size : Z) (g : G) (s : session)
  (cmd : Json.object) :
  cache_size < 0 ->
  verify_command cmd = true -> is_command "send" cmd = true ->
  msg_delivery cmd = "all"%string -> cache_flag cmd = true ->
  handle_send dist cache_size (initial g) s cmd = Fault pop_front_empty.
Proof.
  intros Hc Hv Hs Hall Hflag.
  destruct (verify_send _ Hv Hs) as (T & d & HT & Hd & _ & Hcf & _).
  rewrite (msg_delivery_find _ _ Hd) in Hall. subst d.
  unfold handle_send.
  rewrite (at_find _ _ _ HT), bind_Ok_l. simpl Json.as_string. rewrite bind_Ok_l.
  rewrite (at_find _ _ _ Hd), bind_Ok_l. simpl Json.as_string. rewrite bind_Ok_l.
  rewrite (cache_field_verified _ Hcf), bind_Ok_l, Hflag.
  assert (Hn : next_index (initial g) T = 0).
  { unfold next_index, initial. simpl. by rewrite lookup_empty. }
  assert (Hq : cache (initial g) T = []).
  { unfold cache, initial. simpl. by rewrite lookup_empty. }
  rewrite Hn, Hq. simpl Z.eqb. cbv iota. simpl String.eqb. cbv iota.
  rewrite bind_Ok_l. cbv iota beta.
  rewrite trim_cache_negative; [reflexivity | done |].
  unfold Int.INT_MAX. simpl. lia.
Qed.

(** C9: for a capacity [cache_size >= 0], [trim_cache] returns, and what it
    leaves is the deque's last [min (size, cache_size)] entries, the others
    having been dropped from the front.  The command line accepts a negative
    capacity, and with a negative capacity [trim_cache] runs [pop_front] on
    an empty deque, already at the first append (a one-element deque, as in
    the first cached send of a run).  The deque's size is read through
    [static_cast<int>], so it is taken to fit an [int]. *)
Theorem trim_cache_capacity :
  (forall (cache_size : Z) (q : list Json.object),
      0 <= cache_size ->
      Z.of_nat (List.length q) <= Int.INT_MAX ->
      exists front kept,
        trim_cache cache_size q = Ok kept /\
        q = front ++ kept /\
        kept = drop (List.length q - Z.to_nat cache_size) q /\
        Z.of_nat (List.length kept) =
          Z.min (Z.of_nat (List.length q)) cache_size) /\
  Cli.main ["aiomemq"; "7000"; "-1"]%string = Cli.serving 7000 (-1) /\
  (forall (cache_size : Z) (q : list Json.object),
      cache_size < 0 ->
      Z.of_nat (List.length q) <= Int.INT_MAX ->
      trim_cache cache_size q = Fault pop_front_empty) /\
  (forall (cache_size : Z) (m : Json.object),
      cache_size < 0 ->
      trim_cache cache_size ([] ++ [m]) = Fault pop_front_empty) /\
  (forall (G : Type) (dist : G -> nat -> nat -> nat * G) (cache_size : Z)
          (g : G) (s : session) (cmd : Json.object),
      cache_size < 0 ->
      verify_command cmd = true -> is_command "send" cmd = true ->
      msg_delivery cmd = "all"%string -> cache_flag cmd = true ->
      handle_send dist cache_size (initial g) s cmd = Fault pop_front_empty).
Proof.
  split; [|split; [reflexivity|split; [|split]]];
    [| |
     | intros G dist c g s cmd Hc Hv Hs Hd Hf;
       by apply handle_send_negative_capacity].
  - intros c q Hc Hlen.
    exists (take (List.length q - Z.to_nat c) q),
           (drop (List.length q - Z.to_nat c) q).
    split; [by apply trim_cache_keeps_last|].
    split; [by rewrite take_drop|]. split; [reflexivity|].
    rewrite length_drop. lia.
  - intros c q Hc Hlen. by apply trim_cache_negative.
  - intros c m Hc. apply trim_cache_negative; [done|].
    unfold Int.INT_MAX. simpl. lia.
Qed.

Lemma trim_cache_capacity_witness :
  trim_cache 2 [Sample.stamped (Sample.send "t" "a" "all") 0;
                Sample.stamped (Sample.send "t" "b" "all") 1;
                Sample.stamped (Sample.send "t" "c" "all") 2] =
    Ok [Sample.stamped (Sample.send "t" "b" "all") 1;
        Sample.stamped (Sample.send "t" "c" "all") 2] /\
  trim_cache (-1) [Sample.stamped (Sample.send "t" "a" "all") 0] =
    Fault pop_front_empty.
Proof.
  destruct trim_cache_capacity as (H1 & _ & H2 & _ & _).
  split.
  - destruct (H1 2 [Sample.stamped (Sample.send "t" "a" "all") 0;
                    Sample.stamped (Sample.send "t" "b" "all") 1;
                    Sample.stamped (Sample.send "t" "c" "all") 2])
      as (front & kept & Hk & _ & -> & _);
      [lia | unfold Int.INT_MAX; simpl; lia | exact Hk].
  - apply H2; [lia | unfold Int.INT_MAX; simpl; lia].
Defined.


(* ===================================================================== *)
(** * Part III: further properties of the code                            *)
(* ===================================================================== *)

(** ** The replay caches of the reachable states *)

Lemma trim_cache_bounded (cache_size : Z) (q q' : list Json.object) :
  0 <= cache_size ->
  Z.of_nat (List.length q) <= Int.INT_MAX ->
  trim_cache cache_size q = Ok q' ->
  Z.of_nat (List.length q') <= cache_size /\ exists front, q = front ++ q'.
Proof.
  intros Hc Hlen H. split; [|by eapply trim_cache_suffix].
  rewrite trim_cache_keeps_last in H by done. injection H as <-.
  rewrite length_drop. lia.
Qed.

Lemma trim_cache_noop (cache_size : Z) (q : list Json.object) :
  Z.of_nat (List.length q) <= cache_size ->
  Z.of_nat (List.length q) <= Int.INT_MAX ->
  trim_cache cache_size q = Ok q.
Proof.
  intros Hc Hlen. rewrite trim_cache_unfold, to_int_small by lia.
  destruct (Z.gtb_spec (Z.of_nat (List.length q)) cache_size); [lia | done].
Qed.

Section CacheShape.

Context {G : Type}.
Variable dist : G -> nat -> nat -> nat * G.
Variable cache_size : Z.
Hypothesis cache_size_nonneg : 0 <= cache_size.

Lemma shaped_insert (st st' : state G) (T : string) (q' : list Json.object)
  (next' : Z) :
  cache_shaped cache_size st ->
  caches st' = <[T := q']> (caches st) ->
  (forall T', next_index st' T' =
              if decide (T = T') then next' else next_index st T') ->
  next_index st T <= next' <= Int.INT_MAX ->
  Forall (well_stamped next') q' -> increasing q' ->
  Z.of_nat (List.length q') <= next' ->
  Z.of_nat (List.length q') <= cache_size ->
  Forall (fun m => msg_topic m = T) q' ->
  cache_shaped cache_size st'.
Proof.
  intros (Hok & Hb & Ht) Hc Hn Hnext Hw Hinc Hlen Hsz Htop.
  assert (Hcache : forall T', cache st' T' =
                              if decide (T = T') then q' else cache st T').
  { intros T'. unfold cache. rewrite Hc. apply default_insert. }
  split; [|split].
  - intros T'. rewrite Hcache, Hn.
    destruct (decide (T = T')) as [<-|Hne]; [|apply Hok].
    destruct (Hok T) as (_ & _ & Hr & _). repeat split; try done; lia.
  - intros T'. rewrite Hcache. destruct (decide (T = T')); [done | apply Hb].
  - intros T'. rewrite Hcache.
    destruct (decide (T = T')) as [<-|Hne]; [done | apply Ht].
Qed.

Lemma shaped_same_caches (st st' : state G) :
  cache_shaped cache_size st ->
  caches st' = caches st -> indexs st' = indexs st ->
  cache_shaped cache_size st'.
Proof.
  intros (Hok & Hb & Ht) Hc Hi. unfold cache_shaped, cache_ok, cache_bounded,
    cache_topics, cache, next_index in *. rewrite Hc, Hi. done.
Qed.

Lemma shaped_step (st st' : state G) (ev : event) (out : list frame) :
  cache_shaped cache_size st -> verified ev = true ->
  step dist cache_size st ev = Ok (st', out) ->
  cache_shaped cache_size st'.
Proof.
  intros Hsh Hv H. pose proof Hsh as (Hok & Hb & Ht).
  destruct ev as [s cmd|s]; simpl in *.
  - destruct (handle_command_cases dist cache_size st s cmd Hv)
      as [[Hc Heq]|[[Hc Heq]|[Hc Heq]]]; rewrite Heq in H.
    + apply handle_subscribe_inv in H as (T & _ & _ & _ & Hi & _ & Hca).
      destruct (Hok T) as (Hw & Hinc & Hr & Hl).
      destruct (cache_flag cmd).
      * destruct Hca as (replayed & new_q & q' & _ & Hrebuild & Htrim & Hca & _).
        rewrite (rebuild_stamped (next_index st T)) in Hrebuild by (done || lia).
        injection Hrebuild as <-.
        pose proof (List.filter_length_le
          (kept (Int.to_int (last_seen_of cmd))) (cache st T)) as Hfl.
        assert (Hfi : Z.of_nat (List.length
                  (List.filter (kept (Int.to_int (last_seen_of cmd)))
                               (cache st T))) <= Int.INT_MAX) by lia.
        destruct (trim_cache_bounded _ _ _ cache_size_nonneg Hfi Htrim)
          as [Hsz [front Hfront]].
        pose proof (Forall_bfilter _ (kept (Int.to_int (last_seen_of cmd))) _ Hw)
          as Hall.
        pose proof (StronglySorted_bfilter _
          (kept (Int.to_int (last_seen_of cmd))) _ Hinc) as Hinc'.
        pose proof (Forall_bfilter _ (kept (Int.to_int (last_seen_of cmd))) _
          (Ht T)) as Htop.
        rewrite Hfront in Hall, Hinc', Hfl, Htop.
        apply Forall_app in Hall as [_ Hall].
        apply Forall_app in Htop as [_ Htop].
        apply StronglySorted_app_1_r in Hinc'.
        rewrite length_app in Hfl.
        apply (shaped_insert st st' T q' (next_index st T)); try done; try lia.
        intros T'. unfold next_index. rewrite Hi.
        by destruct (decide (T = T')) as [<-|].
      * destruct Hca as [Hca _]. by apply (shaped_same_caches st).
    + apply handle_unsubscribe_inv in H as (T & _ & _ & _ & Hca & Hi & _).
      by apply (shaped_same_caches st).
    + apply bind_Ok in H as ([[st1 out1] cmd'] & Hsend & H).
      injection H as <- <-.
      destruct (verify_send _ Hv Hc) as (T0 & d0 & HT0 & Hd0 & Hdv & _ & Hni).
      pose proof (cache_ok_send dist cache_size _ _ _ _ _ _ Hok Hv Hc Hsend)
        as Hok1.
      apply handle_send_inv in Hsend
        as (T & d & recipients & do_cache & HT & Hd & Hidx & -> & _ & Hca & _ & _ & Hi & _).
      assert (T0 = T) as -> by congruence.
      destruct (Hok T) as (Hw & Hinc & Hr & Hl).
      destruct do_cache.
      * destruct Hca as (q' & Htrim & Hca).
        assert (Hlen : Z.of_nat (List.length
                  (cache st T ++ [Json.set cmd "index"
                                    (Json.Int64 (next_index st T))]))
                <= Int.INT_MAX).
        { rewrite length_app. simpl. lia. }
        destruct (trim_cache_bounded _ _ _ cache_size_nonneg Hlen Htrim)
          as [Hsz [front Hfront]].
        split; [done|]. split.
        -- intros T'. unfold cache. rewrite Hca, default_insert.
           destruct (decide (T = T')); [done | apply Hb].
        -- intros T'. unfold cache. rewrite Hca, default_insert.
           destruct (decide (T = T')) as [<-|]; [|apply Ht].
           assert (Hall : Forall (fun m => msg_topic m = T)
                     (cache st T ++ [Json.set cmd "index"
                                       (Json.Int64 (next_index st T))])).
           { apply Forall_app. split; [apply Ht|]. constructor; [|done].
             unfold msg_topic. by rewrite find_set_ne, HT. }
           rewrite Hfront in Hall. by apply Forall_app in Hall as [_ Hall].
      * split; [done|]. unfold cache_bounded, cache_topics, cache.
        rewrite Hca. done.
  - injection H as <- <-. destruct (cleanup_caches st s) as [Hca Hi].
    by apply (shaped_same_caches st).
Qed.

Lemma reachable_shaped (st : state G) :
  reachable dist cache_size st -> cache_shaped cache_size st.
Proof.
  intros (g & evs & out & Hv & H).
  eapply (run_invariant dist cache_size (cache_shaped cache_size));
    [| |exact Hv|exact H].
  - intros. by eapply shaped_step.
  - split; [apply initial_cache_ok|]. split.
    + intros T. unfold cache, initial. simpl. rewrite lookup_empty. simpl. lia.
    + intros T. unfold cache, initial. simpl. rewrite lookup_empty. constructor.
Qed.

End CacheShape.

Lemma sample_reachable_with (cache_size : Z) (evs : list event) :
  forallb verified evs = true ->
  (exists r, run Sample.dist cache_size (initial 0%nat) evs = Ok r) ->
  reachable Sample.dist cache_size (Sample.after_with cache_size evs).
Proof.
  intros Hv [[st out] H]. exists 0%nat, evs, out. split; [done|].
  unfold Sample.after_with. by rewrite H.
Qed.

(** X1: with a capacity [cache_size >= 0], in every reachable state each
    topic's cache holds at most [cache_size] messages, with strictly
    increasing indices, each below the topic's next index, and each a
    message that was published to that topic. *)
Theorem caches_bounded_and_sorted {G : Type} (dist : G -> nat -> nat -> nat * G)
  (cache_size : Z) (st : state G) (T : string) :
  0 <= cache_size -> reachable dist cache_size st ->
  Z.of_nat (List.length (cache st T)) <= cache_size /\
  increasing (cache st T) /\
  Forall (fun m => Json.find m "index" = Some (Json.Int64 (msg_index m)) /\
                   (0 <= msg_index m < next_index st T) /\
                   msg_topic m = T) (cache st T).
Proof.
  intros Hc Hr.
  destruct (reachable_shaped dist cache_size Hc st Hr) as (Hok & Hb & Ht).
  destruct (Hok T) as (Hw & Hinc & _).
  split; [apply Hb|]. split; [done|].
  apply Forall_forall. intros m Hm.
  pose proof (Ht T) as HtT. rewrite !Forall_forall in Hw, HtT.
  destruct (well_stamped_index _ _ (Hw _ Hm)) as [Hi Hr'].
  split; [done|]. split; [done|]. by apply HtT.
Qed.

Lemma caches_bounded_and_sorted_witness :
  cache (Sample.after_with 2
           [Command 1%nat (Sample.send "t" "a" "all");
            Command 1%nat (Sample.send "u" "b" "all");
            Command 1%nat (Sample.send "t" "c" "all");
            Command 1%nat (Sample.send "t" "d" "all")]) "t" =
    [Sample.stamped (Sample.send "t" "c" "all") 1;
     Sample.stamped (Sample.send "t" "d" "all") 2] /\
  Z.of_nat (List.length
    (cache (Sample.after_with 2
              [Command 1%nat (Sample.send "t" "a" "all");
               Command 1%nat (Sample.send "u" "b" "all");
               Command 1%nat (Sample.send "t" "c" "all");
               Command 1%nat (Sample.send "t" "d" "all")]) "t")) <= 2.
Proof.
  split; [vm_compute; reflexivity|].
  refine (proj1 (caches_bounded_and_sorted Sample.dist 2 _ "t" _ _)); [lia|].
  apply sample_reachable_with; [reflexivity|].
  eexists. vm_compute. reflexivity.
Defined.

(** X2: in a reachable state with [cache_size >= 0], catch-up does not
    trim: the new cache is the old one without the messages of delivery
    "one" that were just replayed (index above [last_seen]).  So a cached
    "one" message is replayed to one subscriber at most, and a cached
    "all" message is never evicted by a catch-up. *)
Theorem replayed_one_is_evicted {G : Type} (dist : G -> nat -> nat -> nat * G)
  (cache_size : Z) (st : state G) (s : session) (T : string) (last_seen : Z) :
  0 <= cache_size -> reachable dist cache_size st ->
  exists st' out,
    send_cached cache_size st s T last_seen = Ok (st', out) /\
    cache st' T = List.filter (kept last_seen) (cache st T) /\
    (forall m, m ∈ cache st T ->
       (m ∈ cache st' T <->
        ~ (last_seen < msg_index m /\ msg_delivery m = "one"%string))) /\
    (forall m, (s, m) ∈ out -> msg_delivery m = "one"%string ->
               m ∉ cache st' T) /\
    (forall m, m ∈ cache st T -> msg_delivery m = "all"%string ->
               m ∈ cache st' T).
Proof.
  intros Hc Hr.
  destruct (reachable_shaped dist cache_size Hc st Hr) as (Hok & Hb & Ht).
  destruct (Hok T) as (Hw & _ & Hn & Hl).
  pose proof (List.filter_length_le (kept last_seen) (cache st T)) as Hfl.
  pose proof (Hb T) as HbT.
  assert (Hnoop : drop (List.length (List.filter (kept last_seen) (cache st T))
                        - Z.to_nat cache_size)
                       (List.filter (kept last_seen) (cache st T)) =
                  List.filter (kept last_seen) (cache st T)).
  { replace (_ - _)%nat with 0%nat by lia. done. }
  assert (Hkept : forall m, m ∈ cache st T ->
            (kept last_seen m = true <->
             ~ (last_seen < msg_index m /\ msg_delivery m = "one"%string))).
  { intros m Hm. rewrite Forall_forall in Hw.
    destruct (well_stamped_delivery _ _ (Hw _ Hm)) as [_ Hd].
    unfold kept. rewrite orb_true_iff, Z.leb_le, String.eqb_eq.
    destruct Hd as [-> | ->]; split.
    - intros _ [_ H]. discriminate H.
    - intros _. by right.
    - intros [H|H] [H1 _]; [lia | discriminate H].
    - intros H. left. destruct (Z.le_gt_cases (msg_index m) last_seen); [done|].
      exfalso. apply H. split; [lia | done]. }
  exists {| topics := topics st; topics_rev := topics_rev st;
            caches := <[T := List.filter (kept last_seen) (cache st T)]>
                        (caches st);
            indexs := indexs st; rng := rng st |},
         (map (pair s) (List.filter (unseen last_seen) (cache st T))).
  split; [by rewrite send_cached_stamped, Hnoop|].
  assert (Hcache : cache
    {| topics := topics st; topics_rev := topics_rev st;
       caches := <[T := List.filter (kept last_seen) (cache st T)]> (caches st);
       indexs := indexs st; rng := rng st |} T =
    List.filter (kept last_seen) (cache st T)).
  { unfold cache at 1. simpl. by rewrite lookup_insert_eq. }
  rewrite Hcache. split; [done|]. split; [|split].
  - intros m Hm. rewrite <- (Hkept m Hm). split.
    + intros Hin. by apply list_elem_of_In, List.filter_In in Hin as [_ Hk].
    + intros Hk. apply list_elem_of_In, List.filter_In.
      split; [by apply list_elem_of_In | done].
  - intros m Hout Hone Hin.
    apply list_elem_of_In, List.filter_In in Hin as [Hin Hk].
    apply list_elem_of_In in Hin.
    apply list_elem_of_fmap in Hout as (m' & [= <-] & Hm').
    apply list_elem_of_In, List.filter_In in Hm' as [_ Hu].
    unfold unseen in Hu. apply (Hkept m Hin) in Hk. apply Hk. split; [lia|done].
  - intros m Hm Hall. apply list_elem_of_In, List.filter_In.
    split; [by apply list_elem_of_In|]. apply (Hkept m Hm).
    intros [_ H]. rewrite Hall in H. discriminate H.
Qed.

Lemma replayed_one_is_evicted_witness :
  exists st',
    send_cached 100
      (Sample.after [Command 1%nat (Sample.send "t" "a" "all");
                     Command 1%nat (Sample.send "t" "b" "one")])
      2%nat "t" (-1) =
    Ok (st', [(2%nat, Sample.stamped (Sample.send "t" "a" "all") 0);
              (2%nat, Sample.stamped (Sample.send "t" "b" "one") 1)]) /\
    cache st' "t" = [Sample.stamped (Sample.send "t" "a" "all") 0].
Proof.
  assert (Hr : reachable Sample.dist 100
    (Sample.after [Command 1%nat (Sample.send "t" "a" "all");
                   Command 1%nat (Sample.send "t" "b" "one")])).
  { apply sample_reachable; [reflexivity|].
    eexists. vm_compute. reflexivity. }
  destruct (replayed_one_is_evicted Sample.dist 100 _ 2%nat "t" (-1)
              ltac:(lia) Hr) as (st' & out & H1 & H2 & _).
  exists st'. split.
  - rewrite H1. f_equal. f_equal.
    assert (Hout : send_cached 100
      (Sample.after [Command 1%nat (Sample.send "t" "a" "all");
                     Command 1%nat (Sample.send "t" "b" "one")])
      2%nat "t" (-1) ≫= (fun r => Ok r.2) =
      Ok [(2%nat, Sample.stamped (Sample.send "t" "a" "all") 0);
          (2%nat, Sample.stamped (Sample.send "t" "b" "one") 1)])
      by (vm_compute; reflexivity).
    rewrite H1 in Hout. simpl in Hout. by injection Hout.
  - rewrite H2. vm_compute. reflexivity.
Defined.

(** ** What a send writes, and to whom *)

Lemma ordered_NoDup (X : gset session) : NoDup (ordered X).
Proof. unfold ordered. rewrite merge_sort_Permutation. apply NoDup_elements. Qed.

Lemma selection_subset (d : string) (subs recipients : gset session)
  (flag do_cache : bool) :
  selection d subs flag recipients do_cache -> recipients ⊆ subs.
Proof.
  intros [(_ & -> & _)|[(_ & _ & -> & _)|(_ & _ & x & Hx & -> & _)]];
    set_solver.
Qed.

(** X3: the frames a send writes are the stamped message, once to each
    recipient, every recipient being a subscriber of the topic at that
    moment, followed by the success reply to the publisher; nothing else is
    written. *)
Theorem send_reaches_only_subscribers {G : Type}
  (dist : G -> nat -> nat -> nat * G) (cache_size : Z) (st st' : state G)
  (s : session) (cmd cmd' : Json.object) (out : list frame) :
  handle_send dist cache_size st s cmd = Ok (st', out, cmd') ->
  exists recipients : list session,
    out = map (fun x => (x, cmd')) recipients ++ [(s, success)] /\
    NoDup recipients /\
    (forall x, x ∈ recipients -> x ∈ subscribers st (msg_topic cmd)) /\
    (msg_delivery cmd = "all"%string ->
     forall x, x ∈ subscribers st (msg_topic cmd) -> x ∈ recipients) /\
    (msg_delivery cmd <> "all"%string -> (List.length recipients <= 1)%nat).
Proof.
  intros H.
  apply handle_send_inv in H
    as (T & d & recipients & do_cache & HT & Hd & _ & _ & Hsel & _ & _ & _ & _ & ->).
  rewrite (msg_topic_find _ _ HT), (msg_delivery_find _ _ Hd).
  exists (ordered recipients). split; [done|]. split; [apply ordered_NoDup|].
  split; [|split].
  - intros x Hx. apply elem_of_ordered in Hx.
    by apply (selection_subset _ _ _ _ _ Hsel).
  - intros -> x Hx. apply elem_of_ordered.
    destruct Hsel as [(_ & -> & _)|[(Hne & _)|(Hne & _)]]; done.
  - intros Hne. rewrite ordered_length.
    destruct Hsel as [(-> & _)|[(_ & _ & -> & _)|(_ & _ & x & _ & -> & _)]].
    + done.
    + rewrite size_empty. lia.
    + rewrite size_singleton. lia.
Qed.

Lemma send_reaches_only_subscribers_witness :
  exists recipients : list session,
    Sample.written [Command 1%nat (Sample.subscribe "t");
                    Command 2%nat (Sample.subscribe "t");
                    Command 2%nat (Sample.send "t" "x" "all")] =
    Some ([(1%nat, success); (2%nat, success)] ++
          map (fun x => (x, Sample.stamped (Sample.send "t" "x" "all") 0))
              recipients ++ [(2%nat, success)]) /\
    NoDup recipients.
Proof.
  assert (H : exists st',
    handle_send Sample.dist 100
      (Sample.after [Command 1%nat (Sample.subscribe "t");
                     Command 2%nat (Sample.subscribe "t")])
      2%nat (Sample.send "t" "x" "all") =
    Ok (st', [(1%nat, Sample.stamped (Sample.send "t" "x" "all") 0);
              (2%nat, Sample.stamped (Sample.send "t" "x" "all") 0);
              (2%nat, success)],
        Sample.stamped (Sample.send "t" "x" "all") 0)).
  { eexists. vm_compute. reflexivity. }
  destruct H as [st' H].
  destruct (send_reaches_only_subscribers _ _ _ _ _ _ _ _ H)
    as (recipients & Hout & Hnd & _).
  exists recipients. split; [|exact Hnd].
  transitivity
    (Some ([(1%nat, success); (2%nat, success)] ++
           [(1%nat, Sample.stamped (Sample.send "t" "x" "all") 0);
            (2%nat, Sample.stamped (Sample.send "t" "x" "all") 0);
            (2%nat, success)])).
  - vm_compute. reflexivity.
  - do 2 f_equal. exact Hout.
Defined.

(** X4: once a session's [cleanup] has run, a send writes nothing to it
    (the publisher's own success reply apart): the closed session is no
    longer a subscriber of any topic. *)
Theorem no_delivery_after_cleanup {G : Type}
  (dist : G -> nat -> nat -> nat * G) (cache_size : Z) (st st' : state G)
  (x s : session) (cmd cmd' : Json.object) (out : list frame) :
  reachable dist cache_size st ->
  handle_send dist cache_size (cleanup st x) s cmd = Ok (st', out, cmd') ->
  Forall (fun f => f.1 = x -> f = (s, success)) out.
Proof.
  intros Hr H. apply Forall_forall. intros [y m] Hm Hy. simpl in Hy. subst y.
  pose proof (reachable_bidirectional _ _ _ Hr) as Hbi.
  apply handle_send_inv in H
    as (T & d & recipients & do_cache & _ & _ & _ & _ & Hsel & _ & _ & _ & _ & ->).
  apply elem_of_app in Hm as [Hm|Hm].
  - apply list_elem_of_fmap in Hm as (y & [= <- <-] & Hy).
    apply elem_of_ordered in Hy.
    apply (selection_subset _ _ _ _ _ Hsel) in Hy.
    by apply (cleanup_purges st x T Hbi) in Hy.
  - by apply list_elem_of_singleton in Hm.
Qed.

Lemma no_delivery_after_cleanup_witness :
  Sample.written [Command 1%nat (Sample.subscribe "t");
                  Command 2%nat (Sample.subscribe "t");
                  Disconnect 1%nat;
                  Command 3%nat (Sample.send "t" "x" "all")] =
  Some [(1%nat, success); (2%nat, success);
        (2%nat, Sample.stamped (Sample.send "t" "x" "all") 0);
        (3%nat, success)] /\
  Forall (fun f : frame => f.1 = 1%nat -> f = (3%nat, success))
    [(2%nat, Sample.stamped (Sample.send "t" "x" "all") 0); (3%nat, success)].
Proof.
  split; [vm_compute; reflexivity|].
  assert (Hr : reachable Sample.dist 100
    (Sample.after [Command 1%nat (Sample.subscribe "t");
                   Command 2%nat (Sample.subscribe "t")])).
  { apply sample_reachable; [reflexivity|].
    eexists. vm_compute. reflexivity. }
  assert (H : exists st',
    handle_send Sample.dist 100
      (cleanup (Sample.after [Command 1%nat (Sample.subscribe "t");
                              Command 2%nat (Sample.subscribe "t")]) 1%nat)
      3%nat (Sample.send "t" "x" "all") =
    Ok (st', [(2%nat, Sample.stamped (Sample.send "t" "x" "all") 0);
              (3%nat, success)],
        Sample.stamped (Sample.send "t" "x" "all") 0)).
  { eexists. vm_compute. reflexivity. }
  destruct H as [st' H].
  exact (no_delivery_after_cleanup _ _ _ _ 1%nat _ _ _ _ Hr H).
Defined.

(** ** Publish, then subscribe *)




(** ** The registry operations *)

(** X7: a subscribe adds exactly the pair (session, topic) to the
    subscriber sets, and an unsubscribe removes exactly that pair; neither
    touches another session or another topic, and an unsubscribe changes
    no cache and no index.  So subscribing twice is subscribing once, and
    unsubscribing a session that is not subscribed changes no subscriber
    set. *)
Theorem registry_updates {G : Type} (cache_size : Z) (st : state G)
  (s : session) (cmd : Json.object) :
  (forall st' out,
     handle_subscribe cache_size st s cmd = Ok (st', out) ->
     forall S T, S ∈ subscribers st' T <->
                 S ∈ subscribers st T \/ (S = s /\ T = msg_topic cmd)) /\
  (forall st' out,
     handle_unsubscribe st s cmd = Ok (st', out) ->
     (forall S T, S ∈ subscribers st' T <->
                  S ∈ subscribers st T /\ ~ (S = s /\ T = msg_topic cmd)) /\
     caches st' = caches st /\ indexs st' = indexs st /\
     out = [(s, success)]).
Proof.
  split.
  - intros st' out H.
    apply handle_subscribe_inv in H as (T0 & HT & Ht & _).
    rewrite (msg_topic_find _ _ HT). intros S T.
    unfold subscribers at 1. rewrite Ht, default_insert.
    fold (subscribers st T).
    destruct (decide (T0 = T)) as [<-|Hne]; set_solver.
  - intros st' out H.
    apply handle_unsubscribe_inv in H as (T0 & HT & Ht & _ & Hc & Hi & _ & ->).
    rewrite (msg_topic_find _ _ HT). split; [|done]. intros S T.
    unfold subscribers at 1. rewrite Ht, default_insert.
    fold (subscribers st T).
    destruct (decide (T0 = T)) as [<-|Hne]; set_solver.
Qed.

Lemma registry_updates_witness :
  2%nat ∈ subscribers
    (Sample.after [Command 1%nat (Sample.subscribe "t");
                   Command 2%nat (Sample.subscribe "t")]) "t" /\
  ~ 1%nat ∈ subscribers
    (Sample.after [Command 1%nat (Sample.subscribe "t");
                   Command 1%nat (Sample.unsubscribe "t")]) "t".
Proof.
  split.
  - assert (H : exists out,
      handle_subscribe 100
        (Sample.after [Command 1%nat (Sample.subscribe "t")])
        2%nat (Sample.subscribe "t") =
      Ok (Sample.after [Command 1%nat (Sample.subscribe "t");
                        Command 2%nat (Sample.subscribe "t")], out)).
    { eexists. vm_compute. reflexivity. }
    destruct H as [out H].
    apply (proj1 (registry_updates 100 _ 2%nat (Sample.subscribe "t")) _ _ H).
    right. split; reflexivity.
  - assert (H : exists out,
      handle_unsubscribe
        (Sample.after [Command 1%nat (Sample.subscribe "t")])
        1%nat (Sample.unsubscribe "t") =
      Ok (Sample.after [Command 1%nat (Sample.subscribe "t");
                        Command 1%nat (Sample.unsubscribe "t")], out)).
    { eexists. vm_compute. reflexivity. }
    destruct H as [out H].
    destruct (proj2 (registry_updates 100 _ 1%nat (Sample.unsubscribe "t"))
                _ _ H) as [Hmem _].
    intros Hin. apply Hmem in Hin as [_ Hne]. apply Hne. split; reflexivity.
Defined.

(** X8: [cleanup] of a session leaves the subscriber sets of every other
    session as they were, changes no cache, no index and not the random
    engine, and empties the session's own subscription set; running it a
    second time changes no subscriber set. *)
Theorem cleanup_spares_the_others {G : Type} (st : state G) (s : session) :
  (forall S T, S <> s ->
     (S ∈ subscribers (cleanup st s) T <-> S ∈ subscribers st T)) /\
  (forall S, S <> s -> subscriptions (cleanup st s) S = subscriptions st S) /\
  subscriptions (cleanup st s) s = ∅ /\
  caches (cleanup st s) = caches st /\
  indexs (cleanup st s) = indexs st /\
  rng (cleanup st s) = rng st /\
  (forall T, subscribers (cleanup (cleanup st s) s) T =
             subscribers (cleanup st s) T).
Proof.
  split; [|split; [|split; [|split; [|split; [|split]]]]].
  - intros S T HS. rewrite cleanup_subscribers.
    destruct (decide (T ∈ subscriptions st s)); set_solver.
  - intros S HS. rewrite cleanup_subscriptions. by rewrite decide_False.
  - rewrite cleanup_subscriptions. by rewrite decide_True.
  - apply cleanup_caches.
  - apply cleanup_caches.
  - unfold cleanup. by destruct (topics_rev st !! s).
  - intros T. rewrite cleanup_subscribers, cleanup_subscriptions.
    destruct (decide (s = s)); [|done].
    rewrite decide_False by set_solver. done.
Qed.

(** ** The read handler *)

Lemma strip_cr_snoc (l : string) :
  strip_cr (l ++ String "013"%char EmptyString) = l.
Proof.
  induction l as [|c l IH]; [reflexivity|].
  destruct l as [|c' l]; [reflexivity|].
  change (String c (strip_cr (String c' l ++ String "013"%char EmptyString)) =
          String c (String c' l)).
  by rewrite IH.
Qed.

(** X9: the read handler closes the session exactly on a read error and on
    the record [quit] (with or without a trailing CR); it then writes
    nothing and leaves the registry purged of the session.  An empty
    record is ignored: nothing is written and nothing changes. *)
Theorem session_closes_on_quit_or_error {G : Type}
  (dist : G -> nat -> nat -> nat * G) (cache_size : Z)
  (parse : string -> option Json.value) (st st' : state G) (s : session)
  (input : option string) (out : list frame) (status : status) :
  do_read dist cache_size parse st s input = Ok (st', out, status) ->
  (status = closed <->
   input = None \/ exists l, input = Some l /\ strip_cr l = "quit"%string) /\
  (status = closed -> out = [] /\ st' = cleanup st s) /\
  (forall l, input = Some l -> strip_cr l = EmptyString ->
             status = reading /\ out = [] /\ st' = st).
Proof.
  intros H. destruct input as [l|].
  - rewrite do_read_skips_utf8_check in H.
    destruct (String.eqb_spec (strip_cr l) "quit") as [Hq|Hq].
    { injection H as <- <- <-. split; [|split]; try done.
      - split; [|done]. intros _. right. eauto.
      - intros l' [= <-] He. rewrite He in Hq. discriminate Hq. }
    assert (Hopen : status = reading -> 
      (status = closed <->
       Some l = None \/ exists l0, Some l = Some l0 /\ strip_cr l0 = "quit"%string)
      /\ (status = closed -> out = [] /\ st' = cleanup st s)).
    { intros ->. split; [|done]. split; [done|].
      intros [Hn|(l0 & [= <-] & Hl0)]; done. }
    destruct (String.eqb_spec (strip_cr l) "") as [He|He].
    { injection H as <- <- <-. destruct (Hopen eq_refl) as [H1 H2].
      split; [done|]. split; [done|]. done. }
    assert (Hst : status = reading).
    { destruct (parse (strip_cr l)) as [[]|];
        try by injection H as _ _ <-.
      destruct (verify_command o); [|by injection H as _ _ <-].
      apply bind_Ok in H as (r & _ & H). by injection H as _ _ <-. }
    destruct (Hopen Hst) as [H1 H2]. split; [done|]. split; [done|].
    intros l' [= <-] He'. done.
  - simpl in H. injection H as <- <- <-. split; [|split]; try done.
    split; [|done]. intros _. by left.
Qed.

Lemma session_closes_on_quit_or_error_witness :
  (closed = closed <->
   Some ("quit" ++ String "013"%char EmptyString)%string = None \/
   exists l, Some ("quit" ++ String "013"%char EmptyString)%string = Some l /\
             strip_cr l = "quit"%string).
Proof.
  refine (proj1 (session_closes_on_quit_or_error Sample.dist 100
            (fun _ => None) (initial 0%nat) (cleanup (initial 0%nat) 1%nat)
            1%nat (Some ("quit" ++ String "013"%char EmptyString)%string)
            [] closed _)).
  reflexivity.
Defined.

(** X10: one trailing CR is stripped from a record, and only one; a record
    that does not end in CR is handled the same with a CR appended. *)
Theorem trailing_cr_is_tolerated {G : Type}
  (dist : G -> nat -> nat -> nat * G) (cache_size : Z)
  (parse : string -> option Json.value) (st : state G) (s : session)
  (l : string) :
  strip_cr (l ++ String "013"%char EmptyString) = l /\
  (strip_cr l = l ->
   do_read dist cache_size parse st s
     (Some (l ++ String "013"%char EmptyString)%string) =
   do_read dist cache_size parse st s (Some l)).
Proof.
  split; [apply strip_cr_snoc|]. intros Hl.
  rewrite !do_read_skips_utf8_check, strip_cr_snoc, Hl. reflexivity.
Qed.

Lemma trailing_cr_is_tolerated_witness :
  do_read Sample.dist 100 (fun _ => None) (initial 0%nat) 1%nat
    (Some ("quit" ++ String "013"%char EmptyString)%string) =
  do_read Sample.dist 100 (fun _ => None) (initial 0%nat) 1%nat
    (Some "quit"%string).
Proof.
  apply (proj2 (trailing_cr_is_tolerated Sample.dist 100 (fun _ => None)
                  (initial 0%nat) 1%nat "quit")).
  reflexivity.
Defined.

(** ** Reading the command line *)

Lemma digits_app (s t : string) (acc : Z) (n : nat) :
  (t = EmptyString \/ exists c t', t = String c t' /\ Cli.digit c = None) ->
  Cli.digits (s ++ t) acc n = Cli.digits s acc n.
Proof.
  intros Ht. revert acc n. induction s as [|c s IH]; intros acc n; simpl.
  - destruct Ht as [->|(c & t' & -> & Hc)]; [done|]. simpl. by rewrite Hc.
  - destruct (Cli.digit c); [apply IH | done].
Qed.

Lemma skip_space_app (s t : string) :
  Cli.skip_space s <> EmptyString ->
  Cli.skip_space (s ++ t) = (Cli.skip_space s ++ t)%string.
Proof.
  induction s as [|c s IH]; simpl; [done|].
  destruct (Cli.isspace c); [exact IH | done].
Qed.

Lemma stoi_unfold (str : string) :
  Cli.stoi str =
  match Cli.skip_space str with
  | EmptyString => inl Cli.invalid_argument
  | String c s' =>
      let neg := Ascii.eqb c "-" in
      let body := if Ascii.eqb c "-" || Ascii.eqb c "+"
                  then s' else String c s' in
      let '(v, n) := Cli.digits body 0 0%nat in
      if Nat.eqb n 0 then inl Cli.invalid_argument
      else
        let v := if neg then - v else v in
        if Int.in_range v then inr v else inl Cli.out_of_range
  end.
Proof.
  unfold Cli.stoi. destruct (Cli.skip_space str) as [|c s']; [reflexivity|].
  destruct c as [[] [] [] [] [] [] [] []]; reflexivity.
Qed.

Lemma stoi_in_range (s : string) (v : Z) :
  Cli.stoi s = inr v -> Int.INT_MIN <= v <= Int.INT_MAX.
Proof.
  intros Hs. rewrite stoi_unfold in Hs.
  destruct (Cli.skip_space s) as [|c s']; [discriminate|]. simpl in Hs.
  destruct (Cli.digits _ 0 0%nat) as [v0 n].
  destruct (Nat.eqb n 0); [discriminate|].
  destruct (Int.in_range _) eqn:Hr; [|discriminate].
  injection Hs as <-. unfold Int.in_range in Hr.
  apply andb_true_iff in Hr as [H1 H2]. lia.
Qed.

(** X11: [std::stoi] as [main] uses it reads a leading integer and leaves
    the rest unread: text after the digits that does not start with a digit
    changes nothing (so "7000x" is taken as 7000), leading white space is
    skipped, and a value that is returned fits an [int]. *)
Theorem stoi_reads_a_prefix :
  (forall (s t : string) (v : Z),
     Cli.stoi s = inr v ->
     (t = EmptyString \/ exists c t', t = String c t' /\ Cli.digit c = None) ->
     Cli.stoi (s ++ t) = inr v) /\
  (forall (c : ascii) (s : string),
     Cli.isspace c = true -> Cli.stoi (String c s) = Cli.stoi s) /\
  (forall (s : string) (v : Z),
     Cli.stoi s = inr v -> Int.INT_MIN <= v <= Int.INT_MAX).
Proof.
  split; [|split].
  - intros s t v Hs Ht. rewrite stoi_unfold in *.
    destruct (Cli.skip_space s) as [|c s'] eqn:Hsk; [discriminate|].
    rewrite skip_space_app by (rewrite Hsk; done). rewrite Hsk. simpl.
    destruct (Ascii.eqb c "-" || Ascii.eqb c "+").
    + by rewrite digits_app.
    + change (String c (s' ++ t)) with (String c s' ++ t)%string.
      by rewrite digits_app.
  - intros c s Hc. unfold Cli.stoi. simpl. by rewrite Hc.
  - exact stoi_in_range.
Qed.

Lemma stoi_reads_a_prefix_witness :
  Cli.stoi "7000x" = inr 7000 /\
  Cli.stoi " -12" = inr (-12) /\
  Int.INT_MIN <= 7000 <= Int.INT_MAX.
Proof.
  destruct stoi_reads_a_prefix as (H1 & H2 & H3).
  split; [|split].
  - apply (H1 "7000" "x" 7000); [reflexivity|].
    right. exists "x"%char, EmptyString. split; reflexivity.
  - rewrite (H2 " "%char "-12"); reflexivity.
  - apply (H3 "7000"). reflexivity.
Defined.

(** X12: when [main] gets to run the server, the port it binds is the
    parsed port reduced modulo 2^16 (no range check: 65536 binds port 0),
    within 0..65535, the capacity fits an [int], and what is not given on
    the command line is the default (port 7000, capacity 100). *)
Theorem main_serving_values (argv : list string) (port cache_size : Z) :
  Cli.main argv = Cli.serving port cache_size ->
  (1 <= List.length argv <= 3)%nat /\
  (0 <= port < 65536) /\
  (Int.INT_MIN <= cache_size <= Int.INT_MAX) /\
  (match argv with
   | [_] => port = 7000 /\ cache_size = 100
   | [_; p] => exists v, Cli.stoi p = inr v /\ port = v mod 65536 /\
                         cache_size = 100
   | [_; p; c] => exists v, Cli.stoi p = inr v /\ port = v mod 65536 /\
                            Cli.stoi c = inr cache_size
   | _ => False
   end).
Proof.
  intros H.
  assert (Hlen : (1 <= List.length argv <= 3)%nat).
  { destruct (Nat.le_gt_cases 1 (List.length argv)) as [H1|H1];
      [destruct (Nat.le_gt_cases (List.length argv) 3) as [H3|H3]|];
      [done| |].
    - assert (Hu : Cli.main argv = Cli.usage_exit_1)
        by (apply main_arg_count; lia).
      rewrite Hu in H. discriminate H.
    - assert (Hu : Cli.main argv = Cli.usage_exit_1)
        by (apply main_arg_count; lia).
      rewrite Hu in H. discriminate H. }
  split; [done|].
  destruct argv as [|a0 [|a1 [|a2 [|a3 rest]]]]; simpl in Hlen; try lia.
  - injection H as <- <-. vm_compute. repeat split; discriminate.
  - change (Cli.main [a0; a1]) with
      (match Cli.stoi a1 with
       | inl e => Cli.uncaught e
       | inr p => Cli.serving (Int.to_uint16 p) Cli.DEFAULT_CACHE_SIZE
       end) in H.
    destruct (Cli.stoi a1) as [e|v] eqn:Hp; [discriminate|].
    injection H as <- <-. unfold Int.to_uint16, Cli.DEFAULT_CACHE_SIZE.
    pose proof (Z.mod_pos_bound v (2 ^ 16) ltac:(lia)).
    change (2 ^ 16) with 65536 in *.
    split; [lia|]. split; [unfold Int.INT_MIN, Int.INT_MAX; lia|]. eauto.
  - change (Cli.main [a0; a1; a2]) with
      (match Cli.stoi a1 with
       | inl e => Cli.uncaught e
       | inr p =>
           match Cli.stoi a2 with
           | inl e => Cli.uncaught e
           | inr cs => Cli.serving (Int.to_uint16 p) cs
           end
       end) in H.
    destruct (Cli.stoi a1) as [e|v] eqn:Hp; [discriminate|].
    destruct (Cli.stoi a2) as [e|cs] eqn:Hc; [discriminate|].
    injection H as <- <-. unfold Int.to_uint16.
    pose proof (Z.mod_pos_bound v (2 ^ 16) ltac:(lia)).
    change (2 ^ 16) with 65536 in *.
    split; [lia|]. split; [by apply (stoi_in_range a2)|]. eauto.
Qed.

Lemma main_serving_values_witness :
  (0 <= 0 < 65536) /\
  exists v, Cli.stoi "65536" = inr v /\ 0 = v mod 65536 /\
            Cli.stoi "-1" = inr (-1).
Proof.
  destruct (main_serving_values ["aiomemq"; "65536"; "-1"]%string 0 (-1)
              eq_refl) as (_ & H1 & _ & H2).
  split; [exact H1 | exact H2].
Defined.

(** ** The schemas *)

Lemma existsb_Permutation {A : Type} (f : A -> bool) (l l' : list A) :
  l ≡ₚ l' -> existsb f l = existsb f l'.
Proof.
  induction 1 as [|x l l' _ IH|x y l|l l' l'' _ IH1 _ IH2]; simpl.
  - done.
  - by rewrite IH.
  - by destruct (f x), (f y).
  - by rewrite IH1.
Qed.

Lemma forallb_Permutation {A : Type} (f : A -> bool) (l l' : list A) :
  l ≡ₚ l' -> forallb f l = forallb f l'.
Proof.
  induction 1 as [|x l l' _ IH|x y l|l l' l'' _ IH1 _ IH2]; simpl.
  - done.
  - by rewrite IH.
  - by destruct (f x), (f y).
  - by rewrite IH1.
Qed.

Lemma forallb_pointwise {A : Type} (f g : A -> bool) (l : list A) :
  (forall a, f a = g a) -> forallb f l = forallb g l.
Proof. intros H. induction l as [|a l IH]; simpl; [done|]. by rewrite H, IH. Qed.

(** X13: the result of [template_match] does not depend on the order in
    which the template's entries are visited (the order of iteration over
    the [unordered_map] is unspecified). *)
Theorem template_match_order (t t' : Template) (o : Json.object) :
  t ≡ₚ t' -> template_match t o = template_match t' o.
Proof.
  intros Hp. unfold template_match. f_equal.
  - apply forallb_pointwise. intros e. unfold template_contains.
    by apply existsb_Permutation.
  - by apply forallb_Permutation.
Qed.

Lemma template_match_order_witness :
  template_match template_send (Sample.send "t" "x" "one") =
  template_match (rev template_send) (Sample.send "t" "x" "one").
Proof.
  apply template_match_order. apply Permutation_rev.
Defined.

Lemma template_contains_keys (t : Template) (k : string) :
  template_contains t k = true <-> k ∈ map fst t.
Proof.
  unfold template_contains. rewrite existsb_exists, list_elem_of_fmap. split.
  - intros (e & He & Hk). apply String.eqb_eq in Hk.
    exists e. split; [done | by apply list_elem_of_In].
  - intros (e & -> & He). exists e.
    split; [by apply list_elem_of_In | apply String.eqb_refl].
Qed.

Lemma template_keys (t : Template) (o : Json.object) :
  forallb (fun e => template_contains t (fst e)) o = true <->
  Forall (fun e => fst e ∈ map fst t) o.
Proof.
  rewrite forallb_forall, Forall_forall. split.
  - intros H e He. apply template_contains_keys, H. by apply list_elem_of_In.
  - intros H e He. apply template_contains_keys, H. by apply list_elem_of_In.
Qed.

Lemma field_ok_string_iff (o : Json.object) (k : string) :
  field_ok o k {| fs_kind := Json.k_string; required := true; values := [] |}
    = true <->
  exists s, Json.find o k = Some (Json.Str s).
Proof.
  unfold field_ok. destruct (Json.find o k) as [v|]; simpl.
  - destruct v; simpl; split; try discriminate; eauto;
      intros [s Hs]; discriminate Hs.
  - split; [discriminate | intros [s Hs]; discriminate Hs].
Qed.

Lemma field_ok_optional_iff (o : Json.object) (k : string) (kd : Json.kind) :
  field_ok o k {| fs_kind := kd; required := false; values := [] |} = true <->
  optional_kind o k kd.
Proof.
  unfold field_ok, optional_kind. destruct (Json.find o k) as [v|]; simpl;
    [|done].
  destruct (Json.kind_of v), kd; simpl; split; (done || discriminate).
Qed.

Lemma field_ok_delivery_iff (o : Json.object) :
  field_ok o "delivery"
    {| fs_kind := Json.k_string; required := true;
       values := [Json.Str "all"; Json.Str "one"] |} = true <->
  Json.find o "delivery" = Some (Json.Str "all") \/
  Json.find o "delivery" = Some (Json.Str "one").
Proof.
  unfold field_ok. destruct (Json.find o "delivery") as [v|]; simpl.
  - destruct v; simpl; try (split; [discriminate | intros [H|H]; discriminate H]).
    rewrite orb_false_r, orb_true_iff.
    change (String.eqb "all" s = true \/ String.eqb "one" s = true <->
            Some (Json.Str s) = Some (Json.Str "all") \/
            Some (Json.Str s) = Some (Json.Str "one")).
    rewrite !String.eqb_eq. split; intros [H|H]; subst; auto;
      injection H as ->; auto.
  - split; [discriminate | intros [H|H]; discriminate H].
Qed.

Lemma verify_command_of (name : string) (o : Json.object) :
  Json.find o "command" = Some (Json.Str name) ->
  verify_command o =
  if String.eqb name "subscribe" then template_match template_subscribe o
  else if String.eqb name "unsubscribe"
       then template_match template_unsubscribe o
       else if String.eqb name "send" then template_match template_send o
            else false.
Proof. intros H. unfold verify_command. by rewrite H. Qed.

(** X14: what [verify_command] accepts, exactly.  A send command carries
    only the keys command, topic, msg, delivery and cache, with topic and
    msg strings, delivery the string "all" or "one", and cache, when
    present, a boolean; a subscribe command only command, topic, last_seen
    and cache, with topic a string, last_seen, when present, a signed
    64-bit integer, and cache, when present, a boolean; an unsubscribe
    command only command and a string topic.  Nothing else is accepted. *)
Theorem schema_exact (o : Json.object) :
  (verify_command o = true /\ is_command "send" o = true <->
   Json.find o "command" = Some (Json.Str "send") /\
   Forall (fun e => fst e ∈ send_keys) o /\
   (exists T, Json.find o "topic" = Some (Json.Str T)) /\
   (exists m, Json.find o "msg" = Some (Json.Str m)) /\
   (Json.find o "delivery" = Some (Json.Str "all") \/
    Json.find o "delivery" = Some (Json.Str "one")) /\
   optional_kind o "cache" Json.k_bool) /\
  (verify_command o = true /\ is_command "subscribe" o = true <->
   Json.find o "command" = Some (Json.Str "subscribe") /\
   Forall (fun e => fst e ∈ subscribe_keys) o /\
   (exists T, Json.find o "topic" = Some (Json.Str T)) /\
   optional_kind o "last_seen" Json.k_int64 /\
   optional_kind o "cache" Json.k_bool) /\
  (verify_command o = true /\ is_command "unsubscribe" o = true <->
   Json.find o "command" = Some (Json.Str "unsubscribe") /\
   Forall (fun e => fst e ∈ ["command"; "topic"]%string) o /\
   (exists T, Json.find o "topic" = Some (Json.Str T))) /\
  (verify_command o = true ->
   is_command "send" o = true \/ is_command "subscribe" o = true \/
   is_command "unsubscribe" o = true).
Proof.
  assert (Hcmd : forall name,
    is_command name o = true <-> Json.find o "command" = Some (Json.Str name)).
  { intros name. split; [apply is_command_find|].
    intros H. unfold is_command. rewrite H. apply String.eqb_refl. }
  split; [|split; [|split]].
  - split.
    + intros [Hv Hs]. apply Hcmd in Hs.
      rewrite (verify_command_of _ _ Hs) in Hv. simpl in Hv.
      unfold template_match in Hv. apply andb_true_iff in Hv as [Hk Hf].
      apply template_keys in Hk. simpl in Hf.
      rewrite !andb_true_iff in Hf. destruct Hf as (_ & H1 & H2 & H3 & H4 & _).
      split; [done|]. split; [exact Hk|].
      split; [by apply field_ok_string_iff|].
      split; [by apply field_ok_string_iff|].
      split; [by apply field_ok_delivery_iff|].
      by apply field_ok_optional_iff.
    + intros (Hs & Hk & H1 & H2 & H3 & H4).
      split; [|by apply Hcmd].
      rewrite (verify_command_of _ _ Hs). simpl.
      unfold template_match. apply andb_true_iff. split.
      * by apply template_keys.
      * simpl. rewrite !andb_true_iff.
        split; [apply field_ok_string_iff; eauto|].
        split; [by apply field_ok_string_iff|].
        split; [by apply field_ok_string_iff|].
        split; [by apply field_ok_delivery_iff|].
        split; [by apply field_ok_optional_iff | done].
  - split.
    + intros [Hv Hs]. apply Hcmd in Hs.
      rewrite (verify_command_of _ _ Hs) in Hv. simpl in Hv.
      unfold template_match in Hv. apply andb_true_iff in Hv as [Hk Hf].
      apply template_keys in Hk. simpl in Hf.
      rewrite !andb_true_iff in Hf. destruct Hf as (_ & H1 & H2 & H3 & _).
      split; [done|]. split; [exact Hk|].
      split; [by apply field_ok_string_iff|].
      split; by apply field_ok_optional_iff.
    + intros (Hs & Hk & H1 & H2 & H3).
      split; [|by apply Hcmd].
      rewrite (verify_command_of _ _ Hs). simpl.
      unfold template_match. apply andb_true_iff. split.
      * by apply template_keys.
      * simpl. rewrite !andb_true_iff.
        split; [apply field_ok_string_iff; eauto|].
        split; [by apply field_ok_string_iff|].
        split; [by apply field_ok_optional_iff|].
        split; [by apply field_ok_optional_iff | done].
  - split.
    + intros [Hv Hs]. apply Hcmd in Hs.
      rewrite (verify_command_of _ _ Hs) in Hv. simpl in Hv.
      unfold template_match in Hv. apply andb_true_iff in Hv as [Hk Hf].
      apply template_keys in Hk. simpl in Hf.
      rewrite !andb_true_iff in Hf. destruct Hf as (_ & H1 & _).
      split; [done|]. split; [exact Hk|]. by apply field_ok_string_iff.
    + intros (Hs & Hk & H1).
      split; [|by apply Hcmd].
      rewrite (verify_command_of _ _ Hs). simpl.
      unfold template_match. apply andb_true_iff. split.
      * by apply template_keys.
      * simpl. rewrite !andb_true_iff.
        split; [apply field_ok_string_iff; eauto|].
        split; [by apply field_ok_string_iff | done].
  - intros Hv.
    destruct (verify_command_cases _ Hv) as [[H _]|[[H _]|[H _]]]; auto.
Qed.

(** ** What the frames carry *)

(** X15: the message a verified send delivers and caches is the command
    as received with one field added at the end, [index], holding the
    topic's next index; a client cannot supply the index itself, the
    schema rejecting a command that has one. *)
Theorem delivered_message_is_stamped_command {G : Type}
  (dist : G -> nat -> nat -> nat * G) (cache_size : Z) (st st' : state G)
  (s : session) (cmd cmd' : Json.object) (out : list frame) :
  verify_command cmd = true -> is_command "send" cmd = true ->
  handle_send dist cache_size st s cmd = Ok (st', out, cmd') ->
  Json.find cmd "index" = None /\
  cmd' = cmd ++ [("index"%string, Json.Int64 (next_index st (msg_topic cmd)))] /\
  (forall k, k <> "index"%string -> Json.find cmd' k = Json.find cmd k).
Proof.
  intros Hv Hs H.
  destruct (verify_send _ Hv Hs) as (_ & _ & _ & _ & _ & _ & Hni).
  apply handle_send_inv in H
    as (T & d & recipients & do_cache & HT & _ & _ & -> & _).
  rewrite (msg_topic_find _ _ HT). split; [done|].
  split; [by apply set_absent|].
  intros k Hk. by apply find_set_ne.
Qed.

Lemma delivered_message_is_stamped_command_witness :
  Sample.stamped (Sample.send "t" "b" "all") 1 =
  (Sample.send "t" "b" "all" ++
   [("index"%string,
     Json.Int64 (next_index
       (Sample.after [Command 1%nat (Sample.send "t" "a" "all")])
       (msg_topic (Sample.send "t" "b" "all"))))])%list.
Proof.
  assert (H : exists st' out,
    handle_send Sample.dist 100
      (Sample.after [Command 1%nat (Sample.send "t" "a" "all")])
      1%nat (Sample.send "t" "b" "all") =
    Ok (st', out, Sample.stamped (Sample.send "t" "b" "all") 1)).
  { eexists _, _. vm_compute. reflexivity. }
  destruct H as (st' & out & H).
  exact (proj1 (proj2 (delivered_message_is_stamped_command Sample.dist 100
                         _ _ 1%nat (Sample.send "t" "b" "all") _ _
                         eq_refl eq_refl H))).
Defined.

Lemma replay_frames (s : session) (last_seen : Z) (q : list Json.object)
  (out : list frame) :
  replay s last_seen q = Ok out ->
  Forall (fun f : frame => f.1 = s /\ f.2 ∈ q) out.
Proof.
  revert out. induction q as [|m q IH]; intros out H; simpl in H.
  - injection H as <-. constructor.
  - apply bind_Ok in H as (v & _ & H). apply bind_Ok in H as (i & _ & H).
    apply bind_Ok in H as (rest & Hrest & H). injection H as <-.
    specialize (IH _ Hrest).
    assert (IH' : Forall (fun f : frame => f.1 = s /\ f.2 ∈ m :: q) rest).
    { eapply Forall_impl; [exact IH|]. intros f [H1 H2].
      split; [done | by right]. }
    destruct (i >? last_seen); [|done].
    constructor; [|done]. split; [done | by left].
Qed.

(** X16: a subscribe and an unsubscribe write to the session that sent the
    command and to no other; the first frame is the success reply, and
    every frame after it is a message of the topic's cache as it was. *)
Theorem only_the_sender_is_answered {G : Type} (cache_size : Z) (st : state G)
  (s : session) (cmd : Json.object) :
  (forall st' out,
     handle_subscribe cache_size st s cmd = Ok (st', out) ->
     exists replayed,
       out = (s, success) :: replayed /\
       Forall (fun f : frame => f.1 = s /\ f.2 ∈ cache st (msg_topic cmd))
              replayed /\
       (cache_flag cmd = false -> replayed = [])) /\
  (forall st' out,
     handle_unsubscribe st s cmd = Ok (st', out) -> out = [(s, success)]).
Proof.
  split.
  - intros st' out H.
    apply handle_subscribe_inv in H as (T & HT & _ & _ & _ & _ & Hc).
    rewrite (msg_topic_find _ _ HT).
    destruct (cache_flag cmd).
    + destruct Hc as (replayed & new_q & q' & Hreplay & _ & _ & _ & ->).
      exists replayed. split; [done|]. split; [|done].
      by apply (replay_frames s (Int.to_int (last_seen_of cmd))).
    + destruct Hc as [_ ->]. exists []. split; [done|]. split; [constructor|done].
  - intros st' out H.
    by apply handle_unsubscribe_inv in H as (T & _ & _ & _ & _ & _ & _ & ->).
Qed.

Lemma only_the_sender_is_answered_witness :
  exists replayed,
    [(2%nat, success);
     (2%nat, Sample.stamped (Sample.send "t" "a" "all") 0)] =
    (2%nat, success) :: replayed /\
    Forall (fun f : frame =>
              f.1 = 2%nat /\
              f.2 ∈ cache (Sample.after
                              [Command 1%nat (Sample.send "t" "a" "all")])
                          (msg_topic (Sample.subscribe "t")))
           replayed.
Proof.
  assert (H : exists st',
    handle_subscribe 100
      (Sample.after [Command 1%nat (Sample.send "t" "a" "all")])
      2%nat (Sample.subscribe "t") =
    Ok (st', [(2%nat, success);
              (2%nat, Sample.stamped (Sample.send "t" "a" "all") 0)])).
  { eexists. vm_compute. reflexivity. }
  destruct H as [st' H].
  destruct (proj1 (only_the_sender_is_answered 100 _ 2%nat
                     (Sample.subscribe "t")) _ _ H)
    as (replayed & Hout & Hall & _).
  exists replayed. split; [exact Hout | exact Hall].
Defined.

(** ** Socket writes that throw *)

Lemma write_frames_from_spec (writes : nat -> bool) (out : list frame)
  (i : nat) :
  match write_frames_from writes i out with
  | all_written w =>
      w = out /\
      forall k, (k < List.length out)%nat -> writes (i + k)%nat = true
  | write_threw w x =>
      exists n, writes (i + n)%nat = false /\
                (forall k, (k < n)%nat -> writes (i + k)%nat = true) /\
                out !! n = Some x /\ w = take n out
  end.
Proof.
  revert i. induction out as [|f out IH]; intros i; simpl.
  - split; [done|]. intros k Hk. lia.
  - destruct (writes i) eqn:Hi.
    + specialize (IH (S i)).
      destruct (write_frames_from writes (S i) out) as [w|w x].
      * destruct IH as [-> IH]. split; [done|]. intros [|k] Hk.
        -- by rewrite Nat.add_0_r.
        -- rewrite <- Nat.add_succ_comm. apply IH. lia.
      * destruct IH as (n & Hn & Hlt & Hx & ->). exists (S n).
        rewrite <- Nat.add_succ_comm. split; [done|]. split; [|done].
        intros [|k] Hk; [by rewrite Nat.add_0_r|].
        rewrite <- Nat.add_succ_comm. apply Hlt. lia.
    + exists 0%nat. rewrite Nat.add_0_r. split; [done|].
      split; [intros k Hk; lia | done].
Qed.

(** A handler that gives [out] returns when its writes succeed, and is
    left at the first write that throws. *)
Lemma perform_spec {A : Type} (writes : nat -> bool) (a : A)
  (out : list frame) (r : res (A * list frame)) :
  r = Ok (a, out) ->
  match perform writes r with
  | returned a' written =>
      a' = a /\ written = out /\
      forall k, (k < List.length out)%nat -> writes k = true
  | terminated written failed =>
      exists n, writes n = false /\
                (forall k, (k < n)%nat -> writes k = true) /\
                out !! n = Some failed /\ written = take n out
  | raised _ => False
  end.
Proof.
  intros ->. unfold perform, write_frames.
  pose proof (write_frames_from_spec writes out 0) as H.
  destruct (write_frames_from writes 0 out) as [w|w x]; simpl in H.
  - destruct H as [-> H]. done.
  - exact H.
Qed.

Lemma perform_all_written {A : Type} (writes : nat -> bool) (a : A)
  (out : list frame) (r : res (A * list frame)) :
  r = Ok (a, out) ->
  (forall k, (k < List.length out)%nat -> writes k = true) ->
  perform writes r = returned a out.
Proof.
  intros Hr Hw. pose proof (perform_spec writes a out r Hr) as H.
  destruct (perform writes r) as [a' w|w x|f]; [| |done].
  - by destruct H as (-> & -> & _).
  - destruct H as (n & Hn & _ & Hx & _).
    apply lookup_lt_Some in Hx. rewrite Hw in Hn by done. discriminate Hn.
Qed.

(** The acknowledgement is among the frames written before a throwing
    write exactly when that write comes after it. *)
Lemma acknowledged_before (s : session) (before after : list frame) (n : nat) :
  Forall (fun f : frame => Json.find f.2 "index" <> None) before ->
  (s, success) ∈ take n (before ++ (s, success) :: after) <->
  (List.length before < n)%nat.
Proof.
  intros Hb. split.
  - intros Hin. destruct (Nat.lt_ge_cases (List.length before) n) as [|Hle];
      [done|].
    rewrite take_app_le in Hin by done.
    assert (Hin' : (s, success) ∈ before).
    { apply list_elem_of_lookup in Hin as [i Hi].
      apply lookup_take_Some in Hi as [Hi _].
      by eapply list_elem_of_lookup_2. }
    rewrite Forall_forall in Hb. by apply Hb in Hin'.
  - intros Hlt. apply list_elem_of_lookup. exists (List.length before).
    rewrite lookup_take_lt by done.
    by rewrite lookup_app_r, Nat.sub_diag.
Qed.

(** ** Every verified command is acknowledged *)

(** X5: in a reachable state, with [cache_size >= 0] and draws in range, a
    command that [verify_command] accepts raises no fault in
    [handle_command] (a send needs the topic's index below [INT_MAX]).
    The frames the handler writes hold the success reply to the sender,
    and every other frame is a message carrying an index.  Whether the
    handler returns is up to the socket: when every write succeeds it
    returns with all these frames written; when a write throws, the frames
    before it are written, the process ends there, and the sender has its
    success reply only if the write that threw comes after it. *)
Theorem verified_command_is_acknowledged {G : Type}
  (dist : G -> nat -> nat -> nat * G) (cache_size : Z) (st : state G)
  (s : session) (cmd : Json.object) :
  in_range_dist dist -> 0 <= cache_size ->
  reachable dist cache_size st ->
  verify_command cmd = true ->
  (is_command "send" cmd = true ->
   next_index st (msg_topic cmd) < Int.INT_MAX) ->
  exists st' before after,
    handle_command dist cache_size st s cmd =
      Ok (st', before ++ (s, success) :: after) /\
    Forall (fun f : frame => Json.find f.2 "index" <> None) (before ++ after) /\
    forall writes : nat -> bool,
      match perform writes (handle_command dist cache_size st s cmd) with
      | returned st'' written =>
          st'' = st' /\ written = before ++ (s, success) :: after /\
          forall k, (k < List.length written)%nat -> writes k = true
      | terminated written failed =>
          exists n, writes n = false /\
                    (forall k, (k < n)%nat -> writes k = true) /\
                    (before ++ (s, success) :: after) !! n = Some failed /\
                    written = take n (before ++ (s, success) :: after) /\
                    ((s, success) ∈ written <-> (List.length before < n)%nat)
      | raised _ => False
      end.
Proof.
  intros Hdist Hc Hr Hv Hidx.
  pose proof (reachable_cache_ok _ _ _ Hr) as Hok.
  assert (H : exists st' before after,
    handle_command dist cache_size st s cmd =
      Ok (st', before ++ (s, success) :: after) /\
    Forall (fun f : frame => Json.find f.2 "index" <> None) (before ++ after)).
  { destruct (handle_command_cases dist cache_size st s cmd Hv)
      as [[Hcmd Heq]|[[Hcmd Heq]|[Hcmd Heq]]]; rewrite Heq.
    - destruct (handle_subscribe_stamped cache_size st s cmd Hok Hc Hv Hcmd)
        as [st' H].
      exists st', [], (if cache_flag cmd
                       then map (pair s)
                              (List.filter
                                 (unseen (Int.to_int (last_seen_of cmd)))
                                 (cache st (msg_topic cmd)))
                       else []).
      split; [exact H|]. simpl. destruct (cache_flag cmd); [|constructor].
      apply Forall_fmap, Forall_bfilter.
      destruct (Hok (msg_topic cmd)) as (Hw & _).
      eapply Forall_impl; [exact Hw|]. intros m Hm. simpl.
      destruct (well_stamped_index _ _ Hm) as [-> _]. done.
    - destruct (verify_unsubscribe _ Hv Hcmd) as [T HT].
      unfold handle_unsubscribe.
      rewrite (at_find _ _ _ HT), bind_Ok_l. simpl Json.as_string.
      rewrite bind_Ok_l. eexists _, [], []. split; [reflexivity | constructor].
    - destruct (handle_send_returns dist cache_size st s cmd Hdist Hok Hc Hv
                  Hcmd (Hidx Hcmd)) as (st' & out & cmd' & H).
      rewrite H. simpl.
      apply handle_send_inv in H
        as (T & d & recipients & do_cache & _ & _ & _ & -> & _ & _ & _ & _ & _ & ->).
      eexists st', _, []. split; [reflexivity|].
      rewrite app_nil_r. apply Forall_fmap, Forall_forall. intros x _. simpl.
      by rewrite find_set_eq. }
  destruct H as (st' & before & after & H & Hall).
  exists st', before, after. split; [exact H|]. split; [exact Hall|].
  intros writes.
  pose proof (perform_spec writes st' _ _ H) as Hp.
  destruct (perform writes (handle_command dist cache_size st s cmd))
    as [st'' w|w x|f]; [| |done].
  - destruct Hp as (-> & -> & Hp). done.
  - destruct Hp as (n & Hn & Hlt & Hx & ->). exists n.
    repeat (split; [done|]).
    apply acknowledged_before. by apply Forall_app in Hall as [Hb _].
Qed.

Lemma verified_command_is_acknowledged_witness :
  exists st' before after,
    handle_command Sample.dist 100
      (Sample.after [Command 1%nat (Sample.send "t" "a" "all");
                     Command 2%nat (Sample.subscribe "t")])
      3%nat (Sample.subscribe "t") =
    Ok (st', before ++ (3%nat, success) :: after) /\
    Forall (fun f : frame => Json.find f.2 "index" <> None) (before ++ after) /\
    perform (fun _ => true)
      (handle_command Sample.dist 100
         (Sample.after [Command 1%nat (Sample.send "t" "a" "all");
                        Command 2%nat (Sample.subscribe "t")])
         3%nat (Sample.subscribe "t")) =
    returned st' (before ++ (3%nat, success) :: after) /\
    exists written failed,
      perform (fun k => negb (Nat.eqb k 1))
        (handle_command Sample.dist 100
           (Sample.after [Command 1%nat (Sample.send "t" "a" "all");
                          Command 2%nat (Sample.subscribe "t")])
           3%nat (Sample.subscribe "t")) =
      terminated written failed /\
      (3%nat, success) ∈ written.
Proof.
  assert (Hd : in_range_dist Sample.dist).
  { intros g a b Hab. unfold Sample.dist. simpl.
    pose proof (Nat.mod_upper_bound g (b - a + 1)). lia. }
  assert (Hr : reachable Sample.dist 100
    (Sample.after [Command 1%nat (Sample.send "t" "a" "all");
                   Command 2%nat (Sample.subscribe "t")])).
  { apply sample_reachable; [reflexivity|].
    eexists. vm_compute. reflexivity. }
  destruct (verified_command_is_acknowledged Sample.dist 100 _ 3%nat
              (Sample.subscribe "t") Hd ltac:(lia) Hr eq_refl)
    as (st' & before & after & H & Hall & Hw).
  { intros Hsend. discriminate Hsend. }
  exists st', before, after. split; [exact H|]. split; [exact Hall|]. split.
  - specialize (Hw (fun _ => true)).
    destruct (perform _ _) as [st'' w|w x|f]; [| |done].
    + by destruct Hw as (-> & -> & _).
    + destruct Hw as (n & Hn & _). discriminate Hn.
  - specialize (Hw (fun k => negb (Nat.eqb k 1))).
    destruct (perform _ _) as [st'' w|w x|f] eqn:Hp; [| |done].
    + vm_compute in Hp. discriminate Hp.
    + exists w, x. split; [done|].
      destruct Hw as (n & Hn & Hlt & _ & _ & Hack). apply Hack.
      assert (Hb : before = []).
      { assert (Hout : before ++ (3%nat, success) :: after =
          [(3%nat, success);
           (3%nat, Sample.stamped (Sample.send "t" "a" "all") 0)]).
        { assert (Hrun : exists st0,
            handle_command Sample.dist 100
              (Sample.after [Command 1%nat (Sample.send "t" "a" "all");
                             Command 2%nat (Sample.subscribe "t")])
              3%nat (Sample.subscribe "t") =
            Ok (st0,
                [(3%nat, success);
                 (3%nat, Sample.stamped (Sample.send "t" "a" "all") 0)])).
          { eexists. vm_compute. reflexivity. }
          destruct Hrun as [st0 Hrun]. rewrite Hrun in H.
          injection H as _ Hout. by symmetry. }
        destruct before as [|b1 [|b2 [|b3 before]]]; [done| | |].
        - injection Hout as -> Hout. apply Forall_app in Hall as [Hall _].
          by apply Forall_cons in Hall as [Hall _].
        - injection Hout as -> Hout. apply Forall_app in Hall as [Hall _].
          by apply Forall_cons in Hall as [Hall _].
        - destruct before; discriminate Hout. }
      rewrite Hb. simpl.
      destruct n as [|n]; [discriminate Hn | lia].
Defined.

(** ** C2: a send with delivery "one" *)






(** The replay above is that of the state the send leaves.  With a
    capacity of 0 the message is never cached, and a subscriber that
    arrives next is sent its success reply only. *)
Example one_delivery_dropped_at_capacity_zero :
  exists st,
    run Sample.dist 0 (initial 0%nat)
      [Command 1%nat (Sample.send "t" "x" "one");
       Command 2%nat (Sample.subscribe "t")] =
    Ok (st, [(1%nat, success); (2%nat, success)]).
Proof. eexists. vm_compute. reflexivity. Qed.

(** With a capacity of 1 a second send evicts the first from the cache
    before anyone subscribes: the subscriber is sent the second only. *)
Example one_delivery_evicted_at_capacity_one :
  exists st,
    run Sample.dist 1 (initial 0%nat)
      [Command 1%nat (Sample.send "t" "x" "one");
       Command 1%nat (Sample.send "t" "y" "one");
       Command 2%nat (Sample.subscribe "t")] =
    Ok (st, [(1%nat, success); (1%nat, success); (2%nat, success);
             (2%nat, Sample.stamped (Sample.send "t" "y" "one") 1)]).
Proof. eexists. vm_compute. reflexivity. Qed.
